(** * Update rules of [learning_method.py]

    The module builds, for five optimisers (sgd, sgdmomentum, adagrad,
    adadelta, adam), the list of Theano updates [(shared variable, new
    value expression)] that one training step applies.  This file embeds
    the graph construction (shared-variable allocation, the loops over
    [zip(params, gradients, ...)]) and the meaning of one step, and proves
    the recurrences that each update list realises.

    Numbers are idealised: a float32 is read as a real number, so rounding
    and overflow are outside the model.  A tensor is read through its
    coordinates: elementwise operations act on each coordinate, a scalar is
    the tensor that has the same value at every coordinate.  [eval] takes
    the operations as the total functions of the reals; [eval_checked]
    also tells when a result is not a real number (a division by zero, the
    root of a negative number: inf or NaN in floating point). *)

From Stdlib Require Import Reals List Lia Lra Arith PeanoNat.
Import ListNotations.

Open Scope R_scope.

(** ** Tensors and symbolic expressions *)

(** Identity of a [theano.shared] variable. *)
Definition var := nat.

(** Value of a tensor at each (flattened) coordinate. *)
Definition tensor := nat -> R.

(** A 0-d array broadcasts to every coordinate. *)
Definition scalar (x : R) : tensor := fun _ => x.

(** [np.zeros_like(a)] and [np.zeros(a.shape, dtype=a.dtype)]. *)
Definition zeros_like (a : tensor) : tensor := fun _ => 0.

(** [np.float32(x).astype(floatX)]; rounding is idealised away. *)
Definition np_float32 (x : R) : R := x.

(** The symbolic expressions that the module builds with Theano's
    overloaded operators. *)
Inductive expr : Type :=
| Shared (x : var)
| Const (c : R)
| Add (a b : expr)
| Sub (a b : expr)
| Mul (a b : expr)
| Div (a b : expr)
| Neg (a : expr)
| Sqrt (a : expr)
| Pow (a b : expr).

(** One entry of an update list: [(shared variable, new value)]. *)
Definition update := (var * expr)%type.

(** Values of all shared variables. *)
Definition env := var -> tensor.

(** [x ** y] on reals: the integral power when the exponent is an integer,
    [exp (y * ln x)] otherwise. *)
Definition Rpow (x y : R) : R :=
  if Req_dec_T y (IZR (Int_part y)) then powerRZ x (Int_part y)
  else Rpower x y.

(** Elementwise value of an expression. *)
Fixpoint eval (s : env) (e : expr) (i : nat) : R :=
  match e with
  | Shared x => s x i
  | Const c => c
  | Add a b => eval s a i + eval s b i
  | Sub a b => eval s a i - eval s b i
  | Mul a b => eval s a i * eval s b i
  | Div a b => eval s a i / eval s b i
  | Neg a => - eval s a i
  | Sqrt a => sqrt (eval s a i)
  | Pow a b => Rpow (eval s a i) (eval s b i)
  end.

Definition upd (s : env) (x : var) (v : tensor) : env :=
  fun y => if Nat.eqb y x then v else s y.

(** One call of the function compiled with [updates=updates]: every new
    value is computed from the values before the call, then assigned. *)
Definition step (updates : list update) (s : env) : env :=
  fold_left (fun acc u => upd acc (fst u) (eval s (snd u))) updates s.

(** [k] successive calls. *)
Fixpoint steps (updates : list update) (k : nat) (s : env) : env :=
  match k with
  | O => s
  | S k' => step updates (steps updates k' s)
  end.

(** [x ** y] when it is a real number: not for a zero base with a negative
    integral exponent, nor for a non-positive base with a fractional
    exponent. *)
Definition Rpow_checked (x y : R) : option R :=
  if Req_dec_T y (IZR (Int_part y)) then
    if Z.ltb (Int_part y) 0 then
      if Req_dec_T x 0 then None else Some (Rpow x y)
    else Some (Rpow x y)
  else if Rlt_dec 0 x then Some (Rpow x y) else None.

(** Elementwise value of an expression, [None] when it is not a real
    number: a division by zero or the square root of a negative number
    (inf or NaN in floating point, which the operations above it keep). *)
Fixpoint eval_checked (s : env) (e : expr) (i : nat) : option R :=
  match e with
  | Shared x => Some (s x i)
  | Const c => Some c
  | Add a b =>
      match eval_checked s a i, eval_checked s b i with
      | Some x, Some y => Some (x + y)
      | _, _ => None
      end
  | Sub a b =>
      match eval_checked s a i, eval_checked s b i with
      | Some x, Some y => Some (x - y)
      | _, _ => None
      end
  | Mul a b =>
      match eval_checked s a i, eval_checked s b i with
      | Some x, Some y => Some (x * y)
      | _, _ => None
      end
  | Div a b =>
      match eval_checked s a i, eval_checked s b i with
      | Some x, Some y => if Req_dec_T y 0 then None else Some (x / y)
      | _, _ => None
      end
  | Neg a =>
      match eval_checked s a i with
      | Some x => Some (- x)
      | None => None
      end
  | Sqrt a =>
      match eval_checked s a i with
      | Some x => if Rle_dec 0 x then Some (sqrt x) else None
      | None => None
      end
  | Pow a b =>
      match eval_checked s a i, eval_checked s b i with
      | Some x, Some y => Rpow_checked x y
      | _, _ => None
      end
  end.

(** The value that one call gives to coordinate [i] of variable [x], with
    the same order of assignment as [step]; [None] when it is not a real
    number. *)
Definition step_checked (updates : list update) (s : env) (x : var)
  (i : nat) : option R :=
  fold_left
    (fun acc u =>
       fun y => if Nat.eqb y (fst u) then eval_checked s (snd u) i else acc y)
    updates (fun y => Some (s y i)) x.

(** ** Graph construction: allocation of shared variables, assertions *)

Record store : Type := mkStore { next_id : var; contents : env }.

Inductive exn : Type := AssertionError.

Inductive result (A : Type) : Type :=
| Raise (e : exn)
| Return (a : A).
Arguments Raise {A} e.
Arguments Return {A} a.

Definition M (A : Type) : Type := store -> result (A * store).

Definition ret {A} (a : A) : M A := fun st => Return (a, st).

Definition bind {A B} (m : M A) (k : A -> M B) : M B :=
  fun st =>
    match m st with
    | Raise e => Raise e
    | Return (a, st') => k a st'
    end.

Notation "x <- m ;; k" := (bind m (fun x => k))
  (at level 61, m at next level, right associativity).

(** [theano.shared(value)]: a new variable holding [value]. *)
Definition theano_shared (value : tensor) : M var :=
  fun st =>
    Return (next_id st,
            mkStore (S (next_id st)) (upd (contents st) (next_id st) value)).

(** [param.get_value(borrow=True)]. *)
Definition get_value (param : var) : M tensor :=
  fun st => Return (contents st param, st).

(** [assert cond]. *)
Definition py_assert (cond : bool) : M unit :=
  fun st => if cond then Return (tt, st) else Raise AssertionError.

(** [[f(x) for x in l]] with effects, left to right. *)
Fixpoint mapM {A B} (f : A -> M B) (l : list A) : M (list B) :=
  match l with
  | [] => ret []
  | x :: r => y <- f x ;; ys <- mapM f r ;; ret (y :: ys)
  end.

(** [for x in l: acc = body(acc, x)]. *)
Fixpoint foldM {A B} (body : B -> A -> M B) (l : list A) (acc : B) : M B :=
  match l with
  | [] => ret acc
  | x :: r => acc' <- body acc x ;; foldM body r acc'
  end.

(** [zip] of three lists: stops at the shortest. *)
Fixpoint zip3 {A B C} (la : list A) (lb : list B) (lc : list C)
  : list (A * B * C) :=
  match la, lb, lc with
  | a :: la', b :: lb', c :: lc' => (a, b, c) :: zip3 la' lb' lc'
  | _, _, _ => []
  end.

Fixpoint zip4 {A B C D} (la : list A) (lb : list B) (lc : list C)
  (ld : list D) : list (A * B * C * D) :=
  match la, lb, lc, ld with
  | a :: la', b :: lb', c :: lc', d :: ld' =>
      (a, b, c, d) :: zip4 la' lb' lc' ld'
  | _, _, _, _ => []
  end.

(** [0 <= momentum < 1]. *)
Definition momentum_ok (momentum : R) : bool :=
  if Rle_dec 0 momentum then (if Rlt_dec momentum 1 then true else false)
  else false.

(** Whether a construction ended in an exception. *)
Definition raises {A} (r : result A) : bool :=
  match r with
  | Raise _ => true
  | Return _ => false
  end.

(** ** The five optimisers *)

Section Optimizers.

(** [T.grad(cost, params)]: the gradient expressions that Theano returns.
    A call on which Theano itself raises is outside the model. *)
Variable T_grad : expr -> list var -> list expr.

Definition sgd (cost : expr) (params : list var) (lr : R)
  : M (list update) :=
  lr <- theano_shared (scalar (np_float32 lr)) ;;
  let gradients := T_grad cost params in
  let updates := [] in
  ret (fold_left
         (fun updates pg =>
            let '(p, g) := pg in
            updates ++ [(p, Sub (Shared p) (Mul (Shared lr) g))])
         (combine params gradients) updates).

Definition sgdmomentum (cost : expr) (params : list var) (lr momentum : R)
  : M (list update) :=
  _ <- py_assert (momentum_ok momentum) ;;
  lr <- theano_shared (scalar (np_float32 lr)) ;;
  momentum <- theano_shared (scalar (np_float32 momentum)) ;;
  let gradients := T_grad cost params in
  velocities <-
    mapM (fun param => value <- get_value param ;;
                       theano_shared (zeros_like value)) params ;;
  let updates := [] in
  ret (fold_left
         (fun updates pgv =>
            let '(param, gradient, velocity) := pgv in
            let new_velocity :=
              Sub (Mul (Shared momentum) (Shared velocity))
                  (Mul (Shared lr) gradient) in
            (updates ++ [(velocity, new_velocity)])
              ++ [(param, Add (Shared param) new_velocity)])
         (zip3 params gradients velocities) updates).

Definition adagrad (cost : expr) (params : list var) (lr epsilon : R)
  : M (list update) :=
  lr <- theano_shared (scalar (np_float32 lr)) ;;
  epsilon <- theano_shared (scalar (np_float32 epsilon)) ;;
  let gradients := T_grad cost params in
  gsums <-
    mapM (fun param => value <- get_value param ;;
                       theano_shared (zeros_like value)) params ;;
  let updates := [] in
  ret (fold_left
         (fun updates pgs =>
            let '(param, gradient, gsum) := pgs in
            let new_gsum := Add (Shared gsum) (Pow gradient (Const 2)) in
            (updates ++ [(gsum, new_gsum)])
              ++ [(param,
                   Sub (Shared param)
                       (Div (Mul (Shared lr) gradient)
                            (Sqrt (Add new_gsum (Shared epsilon)))))])
         (zip3 params gradients gsums) updates).

Definition adadelta (cost : expr) (params : list var) (rho epsilon : R)
  : M (list update) :=
  rho <- theano_shared (scalar (np_float32 rho)) ;;
  epsilon <- theano_shared (scalar (np_float32 epsilon)) ;;
  let gradients := T_grad cost params in
  accu_gradients <-
    mapM (fun param => value <- get_value param ;;
                       theano_shared (zeros_like value)) params ;;
  accu_deltas <-
    mapM (fun param => value <- get_value param ;;
                       theano_shared (zeros_like value)) params ;;
  let updates := [] in
  ret (fold_left
         (fun updates pgad =>
            let '(param, gradient, accu_gradient, accu_delta) := pgad in
            let new_accu_gradient :=
              Add (Mul (Shared rho) (Shared accu_gradient))
                  (Mul (Sub (Const 1) (Shared rho))
                       (Pow gradient (Const 2))) in
            let delta_x :=
              Mul (Neg (Sqrt (Div (Add (Shared accu_delta) (Shared epsilon))
                                  (Add new_accu_gradient (Shared epsilon)))))
                  gradient in
            let new_accu_delta :=
              Add (Mul (Shared rho) (Shared accu_delta))
                  (Mul (Sub (Const 1) (Shared rho))
                       (Pow delta_x (Const 2))) in
            ((updates ++ [(accu_gradient, new_accu_gradient)])
               ++ [(accu_delta, new_accu_delta)])
              ++ [(param, Add (Shared param) delta_x)])
         (zip4 params gradients accu_gradients accu_deltas) updates).

Definition adam (cost : expr) (params : list var)
  (lr beta1 beta2 epsilon : R) : M (list update) :=
  let updates := [] in
  let gradients := T_grad cost params in
  t <- theano_shared (scalar (np_float32 1)) ;;
  updates <-
    foldM
      (fun updates pg =>
         let '(param, gradient) := pg in
         value <- get_value param ;;
         m_prev <- theano_shared (zeros_like value) ;;
         v_prev <- theano_shared (zeros_like value) ;;
         let m :=
           Add (Mul (Const beta1) (Shared m_prev))
               (Mul (Const (1 - beta1)) gradient) in
         let v :=
           Add (Mul (Const beta2) (Shared v_prev))
               (Mul (Const (1 - beta2)) (Pow gradient (Const 2))) in
         let m_hat := Div m (Sub (Const 1) (Pow (Const beta1) (Shared t))) in
         let v_hat := Div v (Sub (Const 1) (Pow (Const beta2) (Shared t))) in
         let theta :=
           Sub (Shared param)
               (Div (Mul (Const lr) m_hat)
                    (Add (Sqrt v_hat) (Const epsilon))) in
         ret (((updates ++ [(m_prev, m)]) ++ [(v_prev, v)])
                ++ [(param, theta)]))
      (combine params gradients) updates ;;
  ret (updates ++ [(t, Add (Shared t) (Const 1))]).

End Optimizers.

(** ** Sample inputs *)

(** Gradient of the cost [sum of the parameters]: 1 for every parameter. *)
Definition ones_grad (cost : expr) (params : list var) : list expr :=
  map (fun _ => Const 1) params.

(** The cost [param_0 + param_1], whose gradient is [ones_grad]. *)
Definition sum_cost : expr := Add (Shared 0%nat) (Shared 1%nat).

(** The cost [sum of (param - 1)^2] and its gradient [2 * (param - 1)],
    which is zero where every parameter holds 1. *)
Definition quadratic_cost : expr :=
  Add (Pow (Sub (Shared 0%nat) (Const 1)) (Const 2))
      (Pow (Sub (Shared 1%nat) (Const 1)) (Const 2)).

Definition quadratic_grad (cost : expr) (params : list var) : list expr :=
  map (fun p => Mul (Const 2) (Sub (Shared p) (Const 1))) params.

(** Two parameters, variables 0 and 1, each holding 1.0. *)
Definition two_params : list var := [0%nat; 1%nat].
Definition store0 : store := mkStore 2%nat (fun _ => scalar 1).

(** [1 + q + ... + q^(k-1)], in Horner form: the factor by which a
    constant gradient has built up in the velocity after [k] steps. *)
Fixpoint geometric_sum (q : R) (k : nat) : R :=
  match k with
  | O => 0
  | S k' => q * geometric_sum q k' + 1
  end.

(** ** Closed forms of the update lists *)

(** The entries that one iteration of adam's loop appends, and the loop
    as a whole: [m_prev] and [v_prev] are the next two free variables. *)
Definition adam_body (lr beta1 beta2 epsilon : R) (t m_prev v_prev : var)
  (param : var) (gradient : expr) : list update :=
  let m :=
    Add (Mul (Const beta1) (Shared m_prev))
        (Mul (Const (1 - beta1)) gradient) in
  let v :=
    Add (Mul (Const beta2) (Shared v_prev))
        (Mul (Const (1 - beta2)) (Pow gradient (Const 2))) in
  let m_hat := Div m (Sub (Const 1) (Pow (Const beta1) (Shared t))) in
  let v_hat := Div v (Sub (Const 1) (Pow (Const beta2) (Shared t))) in
  let theta :=
    Sub (Shared param)
        (Div (Mul (Const lr) m_hat) (Add (Sqrt v_hat) (Const epsilon))) in
  [(m_prev, m); (v_prev, v); (param, theta)].

Fixpoint adam_entries (lr beta1 beta2 epsilon : R) (t n : var)
  (pgs : list (var * expr)) : list update :=
  match pgs with
  | [] => []
  | (p, g) :: r =>
      adam_body lr beta1 beta2 epsilon t n (S n) p g
        ++ adam_entries lr beta1 beta2 epsilon t (S (S n)) r
  end.

(** Loop bodies of the four other optimisers, as the entries that one
    iteration appends. *)
Definition sgd_body (lr : var) (pg : var * expr) : list update :=
  let '(p, g) := pg in [(p, Sub (Shared p) (Mul (Shared lr) g))].

Definition sgdmomentum_body (lr momentum : var) (pgv : var * expr * var)
  : list update :=
  let '(param, gradient, velocity) := pgv in
  let new_velocity :=
    Sub (Mul (Shared momentum) (Shared velocity))
        (Mul (Shared lr) gradient) in
  [(velocity, new_velocity); (param, Add (Shared param) new_velocity)].

Definition adagrad_body (lr epsilon : var) (pgs : var * expr * var)
  : list update :=
  let '(param, gradient, gsum) := pgs in
  let new_gsum := Add (Shared gsum) (Pow gradient (Const 2)) in
  [(gsum, new_gsum);
   (param,
    Sub (Shared param)
        (Div (Mul (Shared lr) gradient)
             (Sqrt (Add new_gsum (Shared epsilon)))))].

Definition adadelta_body (rho epsilon : var)
  (pgad : var * expr * var * var) : list update :=
  let '(param, gradient, accu_gradient, accu_delta) := pgad in
  let new_accu_gradient :=
    Add (Mul (Shared rho) (Shared accu_gradient))
        (Mul (Sub (Const 1) (Shared rho)) (Pow gradient (Const 2))) in
  let delta_x :=
    Mul (Neg (Sqrt (Div (Add (Shared accu_delta) (Shared epsilon))
                        (Add new_accu_gradient (Shared epsilon)))))
        gradient in
  let new_accu_delta :=
    Add (Mul (Shared rho) (Shared accu_delta))
        (Mul (Sub (Const 1) (Shared rho)) (Pow delta_x (Const 2))) in
  [(accu_gradient, new_accu_gradient); (accu_delta, new_accu_delta);
   (param, Add (Shared param) delta_x)].

(** Where each optimiser puts its shared variables, counted from the
    first free identity [n] at construction. *)
Definition first_var (st : store) : var := next_id st.
Definition second_var (st : store) : var := S (next_id st).
(** Velocity (sgdmomentum), gsum (adagrad), accu_gradient (adadelta) of the
    [i]-th parameter. *)
Definition aux_var (st : store) (i : nat) : var := (next_id st + 2 + i)%nat.
(** accu_delta (adadelta) of the [i]-th of [len] parameters. *)
Definition aux2_var (st : store) (len i : nat) : var :=
  (next_id st + 2 + len + i)%nat.
(** [m_prev] and [v_prev] (adam) of the [i]-th parameter. *)
Definition adam_m (st : store) (i : nat) : var := (next_id st + 1 + 2 * i)%nat.
Definition adam_v (st : store) (i : nat) : var := (next_id st + 2 + 2 * i)%nat.

(** The three expressions of one iteration of adam's loop. *)
Definition adam_m_new (beta1 : R) (m_prev : var) (gradient : expr) : expr :=
  Add (Mul (Const beta1) (Shared m_prev)) (Mul (Const (1 - beta1)) gradient).

Definition adam_v_new (beta2 : R) (v_prev : var) (gradient : expr) : expr :=
  Add (Mul (Const beta2) (Shared v_prev))
      (Mul (Const (1 - beta2)) (Pow gradient (Const 2))).

Definition adam_theta (lr beta1 beta2 epsilon : R) (t m_prev v_prev : var)
  (param : var) (gradient : expr) : expr :=
  Sub (Shared param)
      (Div (Mul (Const lr)
              (Div (adam_m_new beta1 m_prev gradient)
                   (Sub (Const 1) (Pow (Const beta1) (Shared t)))))
           (Add (Sqrt (Div (adam_v_new beta2 v_prev gradient)
                           (Sub (Const 1) (Pow (Const beta2) (Shared t)))))
                (Const epsilon))).

(** Values after construction: what was there below [n0], and zeros in
    the [len] variables allocated from [n] on. *)
Definition fresh_zeros (s s' : env) (n0 n len : nat) : Prop :=
  (forall x, (x < n0)%nat -> s' x = s x) /\
  (forall x j, (n <= x < n + len)%nat -> s' x j = 0).

(** The parameters exist before the optimiser is built. *)
Definition allocated (st : store) (params : list var) : Prop :=
  Forall (fun p => (p < next_id st)%nat) params.

(** [e] is the one expression that the list assigns to [x]. *)
Definition sole_update (us : list update) (x : var) (e : expr) : Prop :=
  In (x, e) us /\ forall e', In (x, e') us -> e' = e.

(** A shared scalar holds the hyperparameter [c]. *)
Definition holds (s : env) (x : var) (c : R) : Prop := forall j, s x j = c.

(** ** Lemmas on lists, steps and allocation *)

Lemma fold_left_append {A B} (body : list B -> A -> list B)
  (f : A -> list B) :
  (forall acc x, body acc x = acc ++ f x) ->
  forall l acc, fold_left body l acc = acc ++ flat_map f l.
Proof.
  intros Hbody l; induction l as [|x l IH]; intros acc; simpl.
  - now rewrite app_nil_r.
  - rewrite IH, Hbody, <- app_assoc. reflexivity.
Qed.

Lemma in_combine_nth {A B} (la : list A) (lb : list B) a b :
  In (a, b) (combine la lb) ->
  exists i, nth_error la i = Some a /\ nth_error lb i = Some b.
Proof.
  revert lb; induction la as [|a0 la IH]; intros [|b0 lb] H; simpl in H;
    try contradiction.
  destruct H as [H|H].
  - inversion H; subst. exists 0%nat. split; reflexivity.
  - destruct (IH _ H) as (i & Ha & Hb). exists (S i). split; assumption.
Qed.

Lemma nth_combine_in {A B} (la : list A) (lb : list B) i a b :
  nth_error la i = Some a -> nth_error lb i = Some b ->
  In (a, b) (combine la lb).
Proof.
  revert la lb; induction i as [|i IH]; intros [|a0 la] [|b0 lb] Ha Hb;
    simpl in *; try discriminate.
  - inversion Ha; inversion Hb; subst. now left.
  - right. now apply IH.
Qed.

Lemma in_zip3_nth {A B C} (la : list A) (lb : list B) (lc : list C) a b c :
  In (a, b, c) (zip3 la lb lc) ->
  exists i, nth_error la i = Some a /\ nth_error lb i = Some b
            /\ nth_error lc i = Some c.
Proof.
  revert lb lc; induction la as [|a0 la IH]; intros [|b0 lb] [|c0 lc] H;
    simpl in H; try contradiction.
  destruct H as [H|H].
  - inversion H; subst. exists 0%nat. repeat split.
  - destruct (IH _ _ H) as (i & Ha & Hb & Hc). exists (S i).
    repeat split; assumption.
Qed.

Lemma nth_zip3_in {A B C} (la : list A) (lb : list B) (lc : list C) i a b c :
  nth_error la i = Some a -> nth_error lb i = Some b ->
  nth_error lc i = Some c -> In (a, b, c) (zip3 la lb lc).
Proof.
  revert la lb lc; induction i as [|i IH];
    intros [|a0 la] [|b0 lb] [|c0 lc] Ha Hb Hc; simpl in *; try discriminate.
  - inversion Ha; inversion Hb; inversion Hc; subst. now left.
  - right. now apply IH.
Qed.

Lemma in_zip4_nth {A B C D} (la : list A) (lb : list B) (lc : list C)
  (ld : list D) a b c d :
  In (a, b, c, d) (zip4 la lb lc ld) ->
  exists i, nth_error la i = Some a /\ nth_error lb i = Some b
            /\ nth_error lc i = Some c /\ nth_error ld i = Some d.
Proof.
  revert lb lc ld; induction la as [|a0 la IH];
    intros [|b0 lb] [|c0 lc] [|d0 ld] H; simpl in H; try contradiction.
  destruct H as [H|H].
  - inversion H; subst. exists 0%nat. repeat split.
  - destruct (IH _ _ _ H) as (i & Ha & Hb & Hc & Hd). exists (S i).
    repeat split; assumption.
Qed.

Lemma nth_zip4_in {A B C D} (la : list A) (lb : list B) (lc : list C)
  (ld : list D) i a b c d :
  nth_error la i = Some a -> nth_error lb i = Some b ->
  nth_error lc i = Some c -> nth_error ld i = Some d ->
  In (a, b, c, d) (zip4 la lb lc ld).
Proof.
  revert la lb lc ld; induction i as [|i IH];
    intros [|a0 la] [|b0 lb] [|c0 lc] [|d0 ld] Ha Hb Hc Hd; simpl in *;
    try discriminate.
  - inversion Ha; inversion Hb; inversion Hc; inversion Hd; subst. now left.
  - right. now apply IH.
Qed.

Lemma nth_seq_some n len i x :
  nth_error (seq n len) i = Some x -> x = (n + i)%nat /\ (i < len)%nat.
Proof.
  rewrite nth_error_seq. destruct (Nat.ltb_spec i len) as [Hlt|Hge];
    intros Hx; inversion Hx; auto.
Qed.

Lemma nth_seq_lt n len i :
  (i < len)%nat -> nth_error (seq n len) i = Some (n + i)%nat.
Proof.
  intros H. rewrite nth_error_seq.
  destruct (Nat.ltb_spec i len) as [Hlt|Hge]; [reflexivity | lia].
Qed.

Lemma nodup_nth_inj {A} (l : list A) i j a :
  NoDup l -> nth_error l i = Some a -> nth_error l j = Some a -> i = j.
Proof.
  intros Hnd Hi Hj. apply (proj1 (NoDup_nth_error l) Hnd).
  - apply nth_error_Some. congruence.
  - congruence.
Qed.

Lemma allocated_nth st params i p :
  allocated st params -> nth_error params i = Some p ->
  (p < next_id st)%nat.
Proof.
  intros Hall Hi. apply nth_error_In in Hi.
  exact (proj1 (Forall_forall _ _) Hall p Hi).
Qed.

Lemma upd_same s x v : upd s x v x = v.
Proof. unfold upd. now rewrite Nat.eqb_refl. Qed.

Lemma upd_other s (x : nat) v (y : nat) : y <> x -> upd s x v y = s y.
Proof.
  intros H. unfold upd. destruct (Nat.eqb_spec y x); [contradiction|easy].
Qed.

Lemma Rpow_INR x n : Rpow x (INR n) = x ^ n.
Proof.
  unfold Rpow. rewrite Int_part_INR.
  destruct (Req_dec_T (INR n) (IZR (Z.of_nat n))) as [_|Hne].
  - symmetry. apply pow_powerRZ.
  - exfalso. apply Hne. apply INR_IZR_INZ.
Qed.

Lemma Rpow_2 x : Rpow x 2 = x ^ 2.
Proof.
  replace 2 with (INR 2) by (simpl; lra). apply Rpow_INR.
Qed.

Lemma Rpow_1 x : Rpow x 1 = x.
Proof.
  replace 1 with (INR 1) by reflexivity. rewrite Rpow_INR. simpl. lra.
Qed.

Lemma momentum_ok_iff momentum :
  momentum_ok momentum = true <-> 0 <= momentum < 1.
Proof.
  unfold momentum_ok.
  destruct (Rle_dec 0 momentum) as [H0|H0];
    destruct (Rlt_dec momentum 1) as [H1|H1]; split;
    try discriminate; try reflexivity; intros; lra.
Qed.

(** The value a step gives to [x] when every update of [x] in the list
    carries the same expression. *)
Lemma fold_updates_functional s x e us :
  (forall e', In (x, e') us -> e' = e) ->
  forall acc, In (x, e) us \/ acc x = eval s e ->
  fold_left (fun acc u => upd acc (fst u) (eval s (snd u))) us acc x
  = eval s e.
Proof.
  induction us as [|[y e0] us IH]; intros Hfun acc Hin; simpl.
  - destruct Hin as [[]|H]; exact H.
  - apply IH.
    + intros e' He'. apply Hfun. now right.
    + destruct (Nat.eq_dec y x) as [->|Hne].
      * right. rewrite upd_same. f_equal. apply Hfun. now left.
      * destruct Hin as [[H|H]|H].
        -- inversion H; subst; contradiction.
        -- now left.
        -- right. rewrite upd_other by congruence. exact H.
Qed.

Lemma step_functional s x e us :
  In (x, e) us -> (forall e', In (x, e') us -> e' = e) ->
  step us s x = eval s e.
Proof.
  intros Hin Hfun. unfold step.
  apply fold_updates_functional; auto.
Qed.

Lemma fold_updates_untouched s x us :
  (forall e, ~ In (x, e) us) ->
  forall acc,
  fold_left (fun acc u => upd acc (fst u) (eval s (snd u))) us acc x = acc x.
Proof.
  induction us as [|[y e0] us IH]; intros Hno acc; simpl; [reflexivity|].
  rewrite IH.
  - apply upd_other. intros ->. apply (Hno e0). now left.
  - intros e He. apply (Hno e). now right.
Qed.

Lemma step_untouched s x us :
  (forall e, ~ In (x, e) us) -> step us s x = s x.
Proof. intros H. unfold step. now apply fold_updates_untouched. Qed.

Lemma step_last s us x e : step (us ++ [(x, e)]) s x = eval s e.
Proof.
  unfold step. rewrite fold_left_app. simpl. apply upd_same.
Qed.

(** Checked evaluation: agreement with [eval], and its value on each
    operation. *)
Lemma Rpow_checked_sound x y v : Rpow_checked x y = Some v -> v = Rpow x y.
Proof.
  unfold Rpow_checked.
  destruct (Req_dec_T y (IZR (Int_part y))) as [_|_].
  - destruct (Z.ltb (Int_part y) 0).
    + destruct (Req_dec_T x 0); intros H; inversion H; reflexivity.
    + intros H; inversion H; reflexivity.
  - destruct (Rlt_dec 0 x); intros H; inversion H; reflexivity.
Qed.

Lemma eval_checked_sound s e i : forall v,
  eval_checked s e i = Some v -> eval s e i = v.
Proof.
  induction e as [x|c|a IHa b IHb|a IHa b IHb|a IHa b IHb|a IHa b IHb
                 |a IHa|a IHa|a IHa b IHb]; intros v; simpl.
  - intros H; inversion H; reflexivity.
  - intros H; inversion H; reflexivity.
  - destruct (eval_checked s a i) as [x|]; [|discriminate].
    destruct (eval_checked s b i) as [y|]; [|discriminate].
    intros H; inversion H. now rewrite (IHa x), (IHb y).
  - destruct (eval_checked s a i) as [x|]; [|discriminate].
    destruct (eval_checked s b i) as [y|]; [|discriminate].
    intros H; inversion H. now rewrite (IHa x), (IHb y).
  - destruct (eval_checked s a i) as [x|]; [|discriminate].
    destruct (eval_checked s b i) as [y|]; [|discriminate].
    intros H; inversion H. now rewrite (IHa x), (IHb y).
  - destruct (eval_checked s a i) as [x|]; [|discriminate].
    destruct (eval_checked s b i) as [y|]; [|discriminate].
    destruct (Req_dec_T y 0); [discriminate|].
    intros H; inversion H. now rewrite (IHa x), (IHb y).
  - destruct (eval_checked s a i) as [x|]; [|discriminate].
    intros H; inversion H. now rewrite (IHa x).
  - destruct (eval_checked s a i) as [x|]; [|discriminate].
    destruct (Rle_dec 0 x); [|discriminate].
    intros H; inversion H. now rewrite (IHa x).
  - destruct (eval_checked s a i) as [x|]; [|discriminate].
    destruct (eval_checked s b i) as [y|]; [|discriminate].
    intros H. apply Rpow_checked_sound in H.
    now rewrite (IHa x), (IHb y).
Qed.

Lemma Rpow_checked_INR x n : Rpow_checked x (INR n) = Some (x ^ n).
Proof.
  unfold Rpow_checked. rewrite Int_part_INR.
  destruct (Req_dec_T (INR n) (IZR (Z.of_nat n))) as [_|Hne].
  - destruct (Z.ltb_spec (Z.of_nat n) 0) as [Hlt|_]; [lia|].
    now rewrite Rpow_INR.
  - exfalso. apply Hne. apply INR_IZR_INZ.
Qed.

Lemma ec_add s a b i x y :
  eval_checked s a i = Some x -> eval_checked s b i = Some y ->
  eval_checked s (Add a b) i = Some (x + y).
Proof. simpl. now intros -> ->. Qed.

Lemma ec_sub s a b i x y :
  eval_checked s a i = Some x -> eval_checked s b i = Some y ->
  eval_checked s (Sub a b) i = Some (x - y).
Proof. simpl. now intros -> ->. Qed.

Lemma ec_mul s a b i x y :
  eval_checked s a i = Some x -> eval_checked s b i = Some y ->
  eval_checked s (Mul a b) i = Some (x * y).
Proof. simpl. now intros -> ->. Qed.

Lemma ec_neg s a i x :
  eval_checked s a i = Some x -> eval_checked s (Neg a) i = Some (- x).
Proof. simpl. now intros ->. Qed.

Lemma ec_div s a b i x y :
  eval_checked s a i = Some x -> eval_checked s b i = Some y -> y <> 0 ->
  eval_checked s (Div a b) i = Some (x / y).
Proof.
  simpl. intros -> -> Hy. destruct (Req_dec_T y 0); [contradiction|easy].
Qed.

Lemma ec_div_by_zero s a b i x :
  eval_checked s a i = Some x -> eval_checked s b i = Some 0 ->
  eval_checked s (Div a b) i = None.
Proof.
  simpl. intros -> ->. destruct (Req_dec_T 0 0); [reflexivity|].
  exfalso; auto.
Qed.

Lemma ec_sub_undefined s a b i :
  eval_checked s b i = None -> eval_checked s (Sub a b) i = None.
Proof. simpl. intros ->. now destruct (eval_checked s a i). Qed.

Lemma ec_sqrt s a i x :
  eval_checked s a i = Some x -> 0 <= x ->
  eval_checked s (Sqrt a) i = Some (sqrt x).
Proof.
  simpl. intros -> Hx. destruct (Rle_dec 0 x); [reflexivity|contradiction].
Qed.

Lemma ec_square s a i x :
  eval_checked s a i = Some x ->
  eval_checked s (Pow a (Const 2)) i = Some (x ^ 2).
Proof.
  simpl. intros ->. replace 2 with (INR 2) by (simpl; lra).
  apply Rpow_checked_INR.
Qed.

Lemma ec_pow_counter s c t i n :
  s t i = INR n ->
  eval_checked s (Pow (Const c) (Shared t)) i = Some (c ^ n).
Proof. simpl. intros ->. apply Rpow_checked_INR. Qed.

Lemma ec_shared s x i : eval_checked s (Shared x) i = Some (s x i).
Proof. reflexivity. Qed.

Lemma ec_const s c i : eval_checked s (Const c) i = Some c.
Proof. reflexivity. Qed.

(** Builds the value of an expression bottom-up; the conditions of the
    divisions and square roots are left to prove. *)
Ltac ec_build :=
  repeat first
    [ eassumption
    | apply ec_shared
    | apply ec_const
    | eapply ec_square
    | eapply ec_pow_counter; eassumption
    | eapply ec_add
    | eapply ec_sub
    | eapply ec_mul
    | eapply ec_neg
    | eapply ec_div
    | eapply ec_sqrt ].

Lemma fold_checked_functional s i x e us :
  (forall e', In (x, e') us -> e' = e) ->
  forall acc, In (x, e) us \/ acc x = eval_checked s e i ->
  fold_left
    (fun acc u =>
       fun y => if Nat.eqb y (fst u) then eval_checked s (snd u) i else acc y)
    us acc x
  = eval_checked s e i.
Proof.
  induction us as [|[y e0] us IH]; intros Hfun acc Hin; simpl.
  - destruct Hin as [[]|H]; exact H.
  - apply IH.
    + intros e' He'. apply Hfun. now right.
    + destruct (Nat.eqb_spec x y) as [<-|Hne].
      * right. f_equal. apply Hfun. now left.
      * destruct Hin as [[H|H]|H].
        -- inversion H; subst; contradiction.
        -- now left.
        -- now right.
Qed.

Lemma step_checked_sole us s x e i :
  sole_update us x e -> step_checked us s x i = eval_checked s e i.
Proof.
  intros [Hin Hfun]. unfold step_checked.
  apply fold_checked_functional; auto.
Qed.

Lemma step_checked_last s us x e i :
  step_checked (us ++ [(x, e)]) s x i = eval_checked s e i.
Proof.
  unfold step_checked. rewrite fold_left_app. simpl.
  now rewrite Nat.eqb_refl.
Qed.

(** What [step_checked] gives is what [step] gives. *)
Lemma step_checked_sound us s i : forall x v,
  step_checked us s x i = Some v -> step us s x i = v.
Proof.
  unfold step_checked, step.
  assert (Hgen : forall (acc : env) (accc : var -> option R),
             (forall x v, accc x = Some v -> acc x i = v) ->
             forall x v,
               fold_left
                 (fun acc u =>
                    fun y => if Nat.eqb y (fst u)
                             then eval_checked s (snd u) i else acc y)
                 us accc x = Some v ->
               fold_left (fun acc u => upd acc (fst u) (eval s (snd u)))
                 us acc x i = v).
  { induction us as [|[y e0] us IH]; intros acc accc Hrel x v; simpl.
    - apply Hrel.
    - apply IH. intros z w. unfold upd.
      destruct (Nat.eqb z y); [|apply Hrel].
      apply eval_checked_sound. }
  apply Hgen. intros x v H. inversion H. reflexivity.
Qed.

Lemma bind_return {A B} (m : M A) (k : A -> M B) st a st' :
  m st = Return (a, st') -> bind m k st = k a st'.
Proof. intros H. unfold bind. now rewrite H. Qed.

(** Allocation of one zero tensor per parameter. *)
Lemma mapM_zeros_like params : forall st,
  exists st',
    mapM (fun param => value <- get_value param ;;
                       theano_shared (zeros_like value)) params st
    = Return (seq (next_id st) (length params), st')
    /\ next_id st' = (next_id st + length params)%nat
    /\ fresh_zeros (contents st) (contents st') (next_id st) (next_id st)
         (length params).
Proof.
  induction params as [|p params IH]; intros st; simpl.
  - exists st. unfold ret, fresh_zeros. repeat split; auto; intros; lia.
  - set (st1 := mkStore (S (next_id st))
                  (upd (contents st) (next_id st)
                     (zeros_like (contents st p)))).
    destruct (IH st1) as (st' & Hrun & Hnext & Hsame & Hzero).
    exists st'.
    rewrite (bind_return _ _ st (next_id st) st1) by reflexivity.
    rewrite (bind_return _ _ st1 _ st' Hrun).
    unfold ret, fresh_zeros. simpl in *.
    repeat split.
    + lia.
    + intros x Hx. rewrite Hsame by lia. apply upd_other. lia.
    + intros x j Hx. destruct (Nat.eq_dec x (next_id st)) as [->|Hne].
      * rewrite Hsame by lia. rewrite upd_same. reflexivity.
      * apply Hzero. lia.
Qed.

Lemma in_flat_combine {A B C} (f : A * B -> list C) la lb c :
  In c (flat_map f (combine la lb)) ->
  exists i a b, nth_error la i = Some a /\ nth_error lb i = Some b
                /\ In c (f (a, b)).
Proof.
  intros H. apply in_flat_map in H. destruct H as ([a b] & Hin & Hc).
  destruct (in_combine_nth _ _ _ _ Hin) as (i & Ha & Hb).
  exists i, a, b. auto.
Qed.

Lemma in_flat_zip3 {A B C D} (f : A * B * C -> list D) la lb lc d :
  In d (flat_map f (zip3 la lb lc)) ->
  exists i a b c, nth_error la i = Some a /\ nth_error lb i = Some b
                  /\ nth_error lc i = Some c /\ In d (f (a, b, c)).
Proof.
  intros H. apply in_flat_map in H. destruct H as ([[a b] c] & Hin & Hd).
  destruct (in_zip3_nth _ _ _ _ _ _ Hin) as (i & Ha & Hb & Hc).
  exists i, a, b, c. auto.
Qed.

Lemma in_flat_zip4 {A B C D E} (f : A * B * C * D -> list E) la lb lc ld e :
  In e (flat_map f (zip4 la lb lc ld)) ->
  exists i a b c d, nth_error la i = Some a /\ nth_error lb i = Some b
                    /\ nth_error lc i = Some c /\ nth_error ld i = Some d
                    /\ In e (f (a, b, c, d)).
Proof.
  intros H. apply in_flat_map in H.
  destruct H as ([[[a b] c] d] & Hin & He).
  destruct (in_zip4_nth _ _ _ _ _ _ _ _ Hin) as (i & Ha & Hb & Hc & Hd).
  exists i, a, b, c, d. auto.
Qed.

(** Facts on the indices of the zipped lists, for the proofs below. *)
Ltac index_facts :=
  repeat match goal with
    | H : nth_error (seq _ _) _ = Some _ |- _ =>
        apply nth_seq_some in H; destruct H
    | Ha : allocated ?st ?ps, H : nth_error ?ps ?i = Some ?p |- _ =>
        lazymatch goal with
        | _ : (p < next_id st)%nat |- _ => fail
        | _ => pose proof (allocated_nth st ps i p Ha H)
        end
    end.

Ltac same_index :=
  match goal with
  | Hnd : NoDup ?ps, H1 : nth_error ?ps ?i = Some ?p,
      H2 : nth_error ?ps ?j = Some ?p |- _ =>
      let E := fresh "E" in
      assert (E : j = i) by (exact (nodup_nth_inj ps j i p Hnd H2 H1));
      subst j
  end.

Section Properties.

Variable T_grad : expr -> list var -> list expr.

(** *** sgd *)

Lemma sgd_run cost params lr st :
  sgd T_grad cost params lr st
  = Return (flat_map (sgd_body (first_var st))
              (combine params (T_grad cost params)),
            mkStore (S (next_id st))
              (upd (contents st) (next_id st) (scalar lr))).
Proof.
  unfold sgd.
  rewrite (bind_return _ _ st (next_id st)
             (mkStore (S (next_id st))
                (upd (contents st) (next_id st) (scalar lr))))
    by reflexivity.
  unfold ret. f_equal. f_equal.
  rewrite (fold_left_append _ (sgd_body (next_id st))).
  - reflexivity.
  - intros acc [p g]. reflexivity.
Qed.

Lemma sgd_step_param cost params st s i p g :
  NoDup params -> allocated st params ->
  nth_error params i = Some p ->
  nth_error (T_grad cost params) i = Some g ->
  step (flat_map (sgd_body (first_var st))
          (combine params (T_grad cost params))) s p
  = eval s (Sub (Shared p) (Mul (Shared (first_var st)) g)).
Proof.
  intros Hnd Hall Hp Hg. apply step_functional.
  - apply in_flat_map. exists (p, g). split.
    + now apply nth_combine_in with i.
    + now left.
  - intros e' He'. apply in_flat_combine in He'.
    destruct He' as (i' & p' & g' & Hp' & Hg' & Hin).
    simpl in Hin. destruct Hin as [Hin|[]]. inversion Hin; subst.
    same_index. congruence.
Qed.

Lemma sgd_step_other cost params st s x :
  ~ In x params ->
  step (flat_map (sgd_body (first_var st))
          (combine params (T_grad cost params))) s x = s x.
Proof.
  intros Hx. apply step_untouched. intros e He.
  apply in_flat_combine in He.
  destruct He as (i' & p' & g' & Hp' & Hg' & Hin).
  simpl in Hin. destruct Hin as [Hin|[]]. inversion Hin; subst.
  apply Hx. eapply nth_error_In; eauto.
Qed.

(** *** sgdmomentum *)

Lemma sgdmomentum_run cost params lr momentum st :
  momentum_ok momentum = true ->
  exists st',
    sgdmomentum T_grad cost params lr momentum st
    = Return (flat_map (sgdmomentum_body (first_var st) (second_var st))
                (zip3 params (T_grad cost params)
                   (seq (next_id st + 2) (length params))), st')
    /\ holds (contents st') (first_var st) lr
    /\ holds (contents st') (second_var st) momentum
    /\ fresh_zeros (contents st) (contents st') (next_id st)
         (next_id st + 2) (length params).
Proof.
  intros Hok. unfold sgdmomentum.
  rewrite (bind_return _ _ st tt st)
    by (unfold py_assert; now rewrite Hok).
  set (st1 := mkStore (S (next_id st))
                (upd (contents st) (next_id st) (scalar lr))).
  rewrite (bind_return _ _ st (next_id st) st1) by reflexivity.
  set (st2 := mkStore (S (next_id st1))
                (upd (contents st1) (next_id st1) (scalar momentum))).
  rewrite (bind_return _ _ st1 (next_id st1) st2) by reflexivity.
  destruct (mapM_zeros_like params st2) as (st' & Hrun & Hnext & Hsame & Hz).
  rewrite (bind_return _ _ st2 _ st' Hrun).
  exists st'. subst st1 st2. simpl in *. unfold first_var, second_var.
  replace (S (S (next_id st))) with (next_id st + 2)%nat in * by lia.
  split; [|split; [|split]].
  - unfold ret. f_equal. f_equal.
    rewrite (fold_left_append _
               (sgdmomentum_body (next_id st) (S (next_id st)))).
    + reflexivity.
    + intros acc [[p g] v]. simpl. now rewrite <- app_assoc.
  - intros j. rewrite Hsame by lia. simpl.
    rewrite upd_other by lia. now rewrite upd_same.
  - intros j. rewrite Hsame by lia. simpl. now rewrite upd_same.
  - split.
    + intros x Hx. rewrite Hsame by lia. simpl.
      rewrite upd_other by lia. now rewrite upd_other by lia.
    + intros x j Hx. apply Hz. lia.
Qed.

(** A loop over [zip(params, gradients, aux)] that appends, for each
    parameter, the update of its auxiliary variable and then its own. *)
Lemma zip3_step (body : var * expr * var -> list update)
  (ev ep : var -> expr -> var -> expr) cost params st s i p g :
  (forall p g v, body (p, g, v) = [(v, ev p g v); (p, ep p g v)]) ->
  NoDup params -> allocated st params ->
  nth_error params i = Some p ->
  nth_error (T_grad cost params) i = Some g ->
  let us := flat_map body
              (zip3 params (T_grad cost params)
                 (seq (next_id st + 2) (length params))) in
  step us s (aux_var st i) = eval s (ev p g (aux_var st i))
  /\ step us s p = eval s (ep p g (aux_var st i))
  /\ step us s (first_var st) = s (first_var st)
  /\ step us s (second_var st) = s (second_var st).
Proof.
  intros Hbody Hnd Hall Hp Hg us.
  assert (Hi : (i < length params)%nat)
    by (apply nth_error_Some; congruence).
  assert (Hv : nth_error (seq (next_id st + 2) (length params)) i
               = Some (aux_var st i)) by (now apply nth_seq_lt).
  assert (Hin : In (p, g, aux_var st i)
                  (zip3 params (T_grad cost params)
                     (seq (next_id st + 2) (length params))))
    by (now apply nth_zip3_in with i).
  unfold aux_var, first_var, second_var in *.
  split; [|split; [|split]].
  - apply step_functional.
    + apply in_flat_map. eexists. split; [exact Hin|].
      rewrite Hbody. now left.
    + intros e' He'. apply in_flat_zip3 in He'.
      destruct He' as (i' & p' & g' & v' & Hp' & Hg' & Hv' & He').
      rewrite Hbody in He'. index_facts.
      destruct He' as [He'|[He'|[]]]; inversion He'; subst.
      * assert (i' = i) by lia. subst i'.
        replace p' with p by congruence. replace g' with g by congruence.
        reflexivity.
      * lia.
  - apply step_functional.
    + apply in_flat_map. eexists. split; [exact Hin|].
      rewrite Hbody. right. now left.
    + intros e' He'. apply in_flat_zip3 in He'.
      destruct He' as (i' & p' & g' & v' & Hp' & Hg' & Hv' & He').
      rewrite Hbody in He'. index_facts.
      destruct He' as [He'|[He'|[]]]; inversion He'; subst.
      * lia.
      * same_index. replace g' with g by congruence. reflexivity.
  - apply step_untouched. intros e He. apply in_flat_zip3 in He.
    destruct He as (i' & p' & g' & v' & Hp' & Hg' & Hv' & He).
    rewrite Hbody in He. index_facts.
    destruct He as [He|[He|[]]]; inversion He; subst; lia.
  - apply step_untouched. intros e He. apply in_flat_zip3 in He.
    destruct He as (i' & p' & g' & v' & Hp' & Hg' & Hv' & He).
    rewrite Hbody in He. index_facts.
    destruct He as [He|[He|[]]]; inversion He; subst; lia.
Qed.

(** *** adagrad *)

Lemma adagrad_run cost params lr epsilon st :
  exists st',
    adagrad T_grad cost params lr epsilon st
    = Return (flat_map (adagrad_body (first_var st) (second_var st))
                (zip3 params (T_grad cost params)
                   (seq (next_id st + 2) (length params))), st')
    /\ holds (contents st') (first_var st) lr
    /\ holds (contents st') (second_var st) epsilon
    /\ fresh_zeros (contents st) (contents st') (next_id st)
         (next_id st + 2) (length params).
Proof.
  unfold adagrad.
  set (st1 := mkStore (S (next_id st))
                (upd (contents st) (next_id st) (scalar lr))).
  rewrite (bind_return _ _ st (next_id st) st1) by reflexivity.
  set (st2 := mkStore (S (next_id st1))
                (upd (contents st1) (next_id st1) (scalar epsilon))).
  rewrite (bind_return _ _ st1 (next_id st1) st2) by reflexivity.
  destruct (mapM_zeros_like params st2) as (st' & Hrun & Hnext & Hsame & Hz).
  rewrite (bind_return _ _ st2 _ st' Hrun).
  exists st'. subst st1 st2. simpl in *. unfold first_var, second_var.
  replace (S (S (next_id st))) with (next_id st + 2)%nat in * by lia.
  split; [|split; [|split]].
  - unfold ret. f_equal. f_equal.
    rewrite (fold_left_append _
               (adagrad_body (next_id st) (S (next_id st)))).
    + reflexivity.
    + intros acc [[p g] v]. simpl. now rewrite <- app_assoc.
  - intros j. rewrite Hsame by lia. simpl.
    rewrite upd_other by lia. now rewrite upd_same.
  - intros j. rewrite Hsame by lia. simpl. now rewrite upd_same.
  - split.
    + intros x Hx. rewrite Hsame by lia. simpl.
      rewrite upd_other by lia. now rewrite upd_other by lia.
    + intros x j Hx. apply Hz. lia.
Qed.

(** *** adadelta *)

Lemma adadelta_run cost params rho epsilon st :
  exists st',
    adadelta T_grad cost params rho epsilon st
    = Return (flat_map (adadelta_body (first_var st) (second_var st))
                (zip4 params (T_grad cost params)
                   (seq (next_id st + 2) (length params))
                   (seq (next_id st + 2 + length params) (length params))),
              st')
    /\ holds (contents st') (first_var st) rho
    /\ holds (contents st') (second_var st) epsilon
    /\ fresh_zeros (contents st) (contents st') (next_id st)
         (next_id st + 2) (length params + length params).
Proof.
  unfold adadelta.
  set (st1 := mkStore (S (next_id st))
                (upd (contents st) (next_id st) (scalar rho))).
  rewrite (bind_return _ _ st (next_id st) st1) by reflexivity.
  set (st2 := mkStore (S (next_id st1))
                (upd (contents st1) (next_id st1) (scalar epsilon))).
  rewrite (bind_return _ _ st1 (next_id st1) st2) by reflexivity.
  destruct (mapM_zeros_like params st2)
    as (st3 & Hrun3 & Hnext3 & Hsame3 & Hz3).
  rewrite (bind_return _ _ st2 _ st3 Hrun3).
  destruct (mapM_zeros_like params st3)
    as (st' & Hrun & Hnext & Hsame & Hz).
  rewrite (bind_return _ _ st3 _ st' Hrun).
  exists st'. subst st1 st2. simpl in *. unfold first_var, second_var.
  rewrite Hnext3 in *.
  replace (S (S (next_id st))) with (next_id st + 2)%nat in * by lia.
  replace (S (S (next_id st + length params)))
    with (next_id st + 2 + length params)%nat in * by lia.
  split; [|split; [|split]].
  - unfold ret. f_equal. f_equal.
    rewrite (fold_left_append _
               (adadelta_body (next_id st) (S (next_id st)))).
    + reflexivity.
    + intros acc [[[p g] a] d]. simpl. now rewrite <- !app_assoc.
  - intros j. rewrite Hsame, Hsame3 by lia. simpl.
    rewrite upd_other by lia. now rewrite upd_same.
  - intros j. rewrite Hsame, Hsame3 by lia. simpl. now rewrite upd_same.
  - split.
    + intros x Hx. rewrite Hsame, Hsame3 by lia. simpl.
      rewrite upd_other by lia. now rewrite upd_other by lia.
    + intros x j Hx.
      destruct (Nat.lt_ge_cases x (next_id st + 2 + length params)).
      * rewrite Hsame by lia. apply Hz3. lia.
      * apply Hz. lia.
Qed.

(** The same for a loop over four zipped lists that appends three updates
    per parameter. *)
Lemma zip4_step (body : var * expr * var * var -> list update)
  (ea ed ep : var -> expr -> var -> var -> expr) cost params st s i p g :
  (forall p g a d,
      body (p, g, a, d) = [(a, ea p g a d); (d, ed p g a d); (p, ep p g a d)])
  ->
  NoDup params -> allocated st params ->
  nth_error params i = Some p ->
  nth_error (T_grad cost params) i = Some g ->
  let us := flat_map body
              (zip4 params (T_grad cost params)
                 (seq (next_id st + 2) (length params))
                 (seq (next_id st + 2 + length params) (length params))) in
  let a := aux_var st i in
  let d := aux2_var st (length params) i in
  step us s a = eval s (ea p g a d)
  /\ step us s d = eval s (ed p g a d)
  /\ step us s p = eval s (ep p g a d)
  /\ step us s (first_var st) = s (first_var st)
  /\ step us s (second_var st) = s (second_var st).
Proof.
  intros Hbody Hnd Hall Hp Hg us a d.
  assert (Hi : (i < length params)%nat)
    by (apply nth_error_Some; congruence).
  assert (Ha : nth_error (seq (next_id st + 2) (length params)) i = Some a)
    by (now apply nth_seq_lt).
  assert (Hd : nth_error
                 (seq (next_id st + 2 + length params) (length params)) i
               = Some d) by (now apply nth_seq_lt).
  assert (Hin : In (p, g, a, d)
                  (zip4 params (T_grad cost params)
                     (seq (next_id st + 2) (length params))
                     (seq (next_id st + 2 + length params) (length params))))
    by (now apply nth_zip4_in with i).
  subst a d. unfold aux_var, aux2_var, first_var, second_var in *.
  split; [|split; [|split; [|split]]].
  - apply step_functional.
    + apply in_flat_map. eexists. split; [exact Hin|].
      rewrite Hbody. now left.
    + intros e' He'. apply in_flat_zip4 in He'.
      destruct He' as (i' & p' & g' & a' & d' & Hp' & Hg' & Ha' & Hd' & He').
      rewrite Hbody in He'. index_facts.
      destruct He' as [He'|[He'|[He'|[]]]]; inversion He'; subst;
        try lia.
      assert (i' = i) by lia. subst i'.
      replace p' with p by congruence. replace g' with g by congruence.
      reflexivity.
  - apply step_functional.
    + apply in_flat_map. eexists. split; [exact Hin|].
      rewrite Hbody. right. now left.
    + intros e' He'. apply in_flat_zip4 in He'.
      destruct He' as (i' & p' & g' & a' & d' & Hp' & Hg' & Ha' & Hd' & He').
      rewrite Hbody in He'. index_facts.
      destruct He' as [He'|[He'|[He'|[]]]]; inversion He'; subst;
        try lia.
      assert (i' = i) by lia. subst i'.
      replace p' with p by congruence. replace g' with g by congruence.
      reflexivity.
  - apply step_functional.
    + apply in_flat_map. eexists. split; [exact Hin|].
      rewrite Hbody. right. right. now left.
    + intros e' He'. apply in_flat_zip4 in He'.
      destruct He' as (i' & p' & g' & a' & d' & Hp' & Hg' & Ha' & Hd' & He').
      rewrite Hbody in He'. index_facts.
      destruct He' as [He'|[He'|[He'|[]]]]; inversion He'; subst;
        try lia.
      same_index. replace g' with g by congruence. reflexivity.
  - apply step_untouched. intros e He. apply in_flat_zip4 in He.
    destruct He as (i' & p' & g' & a' & d' & Hp' & Hg' & Ha' & Hd' & He).
    rewrite Hbody in He. index_facts.
    destruct He as [He|[He|[He|[]]]]; inversion He; subst; lia.
  - apply step_untouched. intros e He. apply in_flat_zip4 in He.
    destruct He as (i' & p' & g' & a' & d' & Hp' & Hg' & Ha' & Hd' & He).
    rewrite Hbody in He. index_facts.
    destruct He as [He|[He|[He|[]]]]; inversion He; subst; lia.
Qed.

(** *** adam *)

Lemma nth_error_combine {A B} (la : list A) (lb : list B) i a b :
  nth_error (combine la lb) i = Some (a, b) <->
  nth_error la i = Some a /\ nth_error lb i = Some b.
Proof.
  revert la lb; induction i as [|i IH]; intros [|a0 la] [|b0 lb]; simpl;
    try (split; [discriminate | intros [? ?]; discriminate]).
  - split.
    + intros H; inversion H; auto.
    + intros [Ha Hb]; inversion Ha; inversion Hb; reflexivity.
  - apply IH.
Qed.

Lemma in_adam_entries lr beta1 beta2 epsilon t pgs : forall n x e,
  In (x, e) (adam_entries lr beta1 beta2 epsilon t n pgs) ->
  exists i p g,
    nth_error pgs i = Some (p, g)
    /\ In (x, e)
         (adam_body lr beta1 beta2 epsilon t (n + 2 * i)%nat
            (S (n + 2 * i)) p g).
Proof.
  induction pgs as [|[p g] pgs IH]; intros n x e H; simpl in H.
  - contradiction.
  - change (In (x, e)
              (adam_body lr beta1 beta2 epsilon t n (S n) p g
                 ++ adam_entries lr beta1 beta2 epsilon t (S (S n)) pgs))
      in H.
    apply in_app_or in H. destruct H as [H|H].
    + exists 0%nat, p, g. split; [reflexivity|].
      now replace (n + 2 * 0)%nat with n by lia.
    + destruct (IH _ _ _ H) as (i & p' & g' & Hi & Hin).
      exists (S i), p', g'. split; [exact Hi|].
      now replace (n + 2 * S i)%nat with (S (S n) + 2 * i)%nat by lia.
Qed.

Lemma adam_entries_in lr beta1 beta2 epsilon t pgs : forall n i p g u,
  nth_error pgs i = Some (p, g) ->
  In u (adam_body lr beta1 beta2 epsilon t (n + 2 * i)%nat
            (S (n + 2 * i)) p g)
  -> In u (adam_entries lr beta1 beta2 epsilon t n pgs).
Proof.
  induction pgs as [|[p0 g0] pgs IH]; intros n [|i] p g u Hi Hu;
    simpl in Hi; try discriminate.
  - inversion Hi; subst.
    replace (n + 2 * 0)%nat with n in Hu by lia.
    change (In u
              (adam_body lr beta1 beta2 epsilon t n (S n) p g
                 ++ adam_entries lr beta1 beta2 epsilon t (S (S n)) pgs)).
    apply in_or_app. now left.
  - change (In u
              (adam_body lr beta1 beta2 epsilon t n (S n) p0 g0
                 ++ adam_entries lr beta1 beta2 epsilon t (S (S n)) pgs)).
    apply in_or_app. right. apply IH with i p g; [exact Hi|].
    now replace (S (S n) + 2 * i)%nat with (n + 2 * S i)%nat by lia.
Qed.

Lemma adam_loop lr beta1 beta2 epsilon t
  (body : list update -> var * expr -> M (list update)) :
  (forall acc p g st,
      body acc (p, g) st
      = Return (acc ++ adam_body lr beta1 beta2 epsilon t
                         (next_id st) (S (next_id st)) p g,
                mkStore (S (S (next_id st)))
                  (upd (upd (contents st) (next_id st)
                          (zeros_like (contents st p)))
                     (S (next_id st)) (zeros_like (contents st p))))) ->
  forall pgs acc st,
  exists st',
    foldM body pgs acc st
    = Return (acc ++ adam_entries lr beta1 beta2 epsilon t (next_id st) pgs,
              st')
    /\ fresh_zeros (contents st) (contents st') (next_id st) (next_id st)
         (2 * length pgs).
Proof.
  intros Hbody pgs; induction pgs as [|[p g] pgs IH]; intros acc st.
  - exists st. simpl. unfold ret, fresh_zeros. rewrite app_nil_r.
    repeat split; auto; intros; lia.
  - simpl foldM. rewrite (bind_return _ _ _ _ _ (Hbody acc p g st)).
    match goal with
    | |- context [foldM body pgs ?acc1 ?st1] =>
        destruct (IH acc1 st1) as (st' & Hrun & Hsame & Hz)
    end.
    exists st'. rewrite Hrun. simpl in *. split.
    + now rewrite <- app_assoc.
    + split.
      * intros x Hx. rewrite Hsame by lia.
        rewrite upd_other by lia. now rewrite upd_other by lia.
      * intros x j Hx.
        destruct (Nat.eq_dec x (next_id st)) as [->|Hn0].
        { rewrite Hsame by lia. rewrite upd_other by lia.
          now rewrite upd_same. }
        destruct (Nat.eq_dec x (S (next_id st))) as [->|Hn1].
        { rewrite Hsame by lia. now rewrite upd_same. }
        apply Hz. lia.
Qed.

Lemma adam_run cost params lr beta1 beta2 epsilon st :
  exists st',
    adam T_grad cost params lr beta1 beta2 epsilon st
    = Return (adam_entries lr beta1 beta2 epsilon (first_var st)
                (S (next_id st)) (combine params (T_grad cost params))
                ++ [(first_var st, Add (Shared (first_var st)) (Const 1))],
              st')
    /\ holds (contents st') (first_var st) 1
    /\ fresh_zeros (contents st) (contents st') (next_id st)
         (S (next_id st))
         (2 * length (combine params (T_grad cost params))).
Proof.
  unfold adam.
  set (st1 := mkStore (S (next_id st))
                (upd (contents st) (next_id st) (scalar 1))).
  rewrite (bind_return _ _ st (next_id st) st1) by reflexivity.
  match goal with
  | |- context [foldM ?body ?l ?a] =>
      assert (Hbody : forall acc p g st0,
                 body acc (p, g) st0
                 = Return (acc ++ adam_body lr beta1 beta2 epsilon
                                    (next_id st) (next_id st0)
                                    (S (next_id st0)) p g,
                           mkStore (S (S (next_id st0)))
                             (upd (upd (contents st0) (next_id st0)
                                     (zeros_like (contents st0 p)))
                                (S (next_id st0))
                                (zeros_like (contents st0 p)))));
      [| destruct (adam_loop lr beta1 beta2 epsilon (next_id st) body
                     Hbody l a st1) as (st' & Hrun & Hsame & Hz)]
  end.
  - intros acc p g st0. cbv beta iota.
    rewrite (bind_return _ _ st0 (contents st0 p) st0) by reflexivity.
    set (st2 := mkStore (S (next_id st0))
                  (upd (contents st0) (next_id st0)
                     (zeros_like (contents st0 p)))).
    rewrite (bind_return _ _ st0 (next_id st0) st2) by reflexivity.
    rewrite (bind_return _ _ st2 (S (next_id st0))
               (mkStore (S (S (next_id st0)))
                  (upd (contents st2) (S (next_id st0))
                     (zeros_like (contents st0 p))))) by reflexivity.
    unfold ret, adam_body. subst st2. simpl. now rewrite <- !app_assoc.
  - exists st'. rewrite (bind_return _ _ st1 _ st' Hrun).
    subst st1. simpl in *. unfold first_var. split; [reflexivity|].
    split.
    + intros j. rewrite Hsame by lia. now rewrite upd_same.
    + split.
      * intros x Hx. rewrite Hsame by lia. now rewrite upd_other by lia.
      * intros x j Hx. apply Hz. lia.
Qed.

Lemma adam_body_eq lr beta1 beta2 epsilon t m_prev v_prev p g :
  adam_body lr beta1 beta2 epsilon t m_prev v_prev p g
  = [(m_prev, adam_m_new beta1 m_prev g);
     (v_prev, adam_v_new beta2 v_prev g);
     (p, adam_theta lr beta1 beta2 epsilon t m_prev v_prev p g)].
Proof. reflexivity. Qed.

Lemma adam_step cost params lr beta1 beta2 epsilon st s i p g :
  NoDup params -> allocated st params ->
  nth_error params i = Some p ->
  nth_error (T_grad cost params) i = Some g ->
  let t := first_var st in
  let us := adam_entries lr beta1 beta2 epsilon t (S (next_id st))
              (combine params (T_grad cost params))
            ++ [(t, Add (Shared t) (Const 1))] in
  step us s (adam_m st i) = eval s (adam_m_new beta1 (adam_m st i) g)
  /\ step us s (adam_v st i) = eval s (adam_v_new beta2 (adam_v st i) g)
  /\ step us s p
     = eval s (adam_theta lr beta1 beta2 epsilon t (adam_m st i)
                 (adam_v st i) p g).
Proof.
  intros Hnd Hall Hp Hg t us.
  assert (Hpg : nth_error (combine params (T_grad cost params)) i
                = Some (p, g)) by (now apply nth_error_combine).
  pose proof (allocated_nth _ _ _ _ Hall Hp) as Hlt.
  assert (Hm : adam_m st i = (S (next_id st) + 2 * i)%nat)
    by (unfold adam_m; lia).
  assert (Hv : adam_v st i = S (S (next_id st) + 2 * i))
    by (unfold adam_v; lia).
  assert (Hcase : forall x e',
             In (x, e') us ->
             (x = t /\ e' = Add (Shared t) (Const 1))
             \/ exists i' p' g',
                 nth_error params i' = Some p'
                 /\ nth_error (T_grad cost params) i' = Some g'
                 /\ ((x = adam_m st i'
                      /\ e' = adam_m_new beta1 (adam_m st i') g')
                     \/ (x = adam_v st i'
                         /\ e' = adam_v_new beta2 (adam_v st i') g')
                     \/ (x = p'
                         /\ e' = adam_theta lr beta1 beta2 epsilon t
                                   (adam_m st i') (adam_v st i') p' g'))).
  { intros x e' He'. apply in_app_or in He'. destruct He' as [He'|He'].
    - right. apply in_adam_entries in He'.
      destruct He' as (i' & p' & g' & Hi' & Hin).
      apply nth_error_combine in Hi'. destruct Hi' as [Hp' Hg'].
      exists i', p', g'. split; [exact Hp'|]. split; [exact Hg'|].
      assert (Hm' : adam_m st i' = (S (next_id st) + 2 * i')%nat)
        by (unfold adam_m; lia).
      assert (Hv' : adam_v st i' = S (S (next_id st) + 2 * i'))
        by (unfold adam_v; lia).
      rewrite Hm', Hv'. rewrite adam_body_eq in Hin.
      destruct Hin as [Hin|[Hin|[Hin|[]]]]; inversion Hin; subst; auto.
    - left. destruct He' as [He'|[]]. inversion He'; auto. }
  assert (Hidx : forall i', adam_m st i' = adam_m st i -> i' = i)
    by (unfold adam_m; intros; lia).
  assert (Hidx' : forall i', adam_v st i' = adam_v st i -> i' = i)
    by (unfold adam_v; intros; lia).
  assert (Hmv : forall i' j', adam_m st i' <> adam_v st j')
    by (unfold adam_m, adam_v; intros; lia).
  assert (Hmt : forall i', adam_m st i' <> t /\ adam_v st i' <> t)
    by (unfold adam_m, adam_v, t, first_var; intros; lia).
  assert (Hfresh : forall i' p', nth_error params i' = Some p' ->
             forall j', p' <> adam_m st j' /\ p' <> adam_v st j' /\ p' <> t).
  { intros i' p' Hp' j'. pose proof (allocated_nth _ _ _ _ Hall Hp').
    unfold adam_m, adam_v, t, first_var. lia. }
  split; [|split].
  - apply step_functional.
    + apply in_or_app. left.
      apply (adam_entries_in _ _ _ _ _ _ _ i p g); [exact Hpg|].
      rewrite adam_body_eq, <- Hm. now left.
    + intros e' He'. apply Hcase in He'.
      destruct He' as [[Hx _]|(i' & p' & g' & Hp' & Hg' & Hc)].
      * exfalso. exact (proj1 (Hmt i) Hx).
      * destruct Hc as [[Hx ->]|[[Hx ->]|[Hx ->]]].
        -- symmetry in Hx. apply Hidx in Hx. subst i'.
           replace g' with g by congruence. reflexivity.
        -- exfalso. exact (Hmv i i' Hx).
        -- exfalso. exact (proj1 (Hfresh i' p' Hp' i) (eq_sym Hx)).
  - apply step_functional.
    + apply in_or_app. left.
      apply (adam_entries_in _ _ _ _ _ _ _ i p g); [exact Hpg|].
      rewrite adam_body_eq, <- Hv. right. now left.
    + intros e' He'. apply Hcase in He'.
      destruct He' as [[Hx _]|(i' & p' & g' & Hp' & Hg' & Hc)].
      * exfalso. exact (proj2 (Hmt i) Hx).
      * destruct Hc as [[Hx ->]|[[Hx ->]|[Hx ->]]].
        -- exfalso. exact (Hmv i' i (eq_sym Hx)).
        -- symmetry in Hx. apply Hidx' in Hx. subst i'.
           replace g' with g by congruence. reflexivity.
        -- exfalso.
           exact (proj1 (proj2 (Hfresh i' p' Hp' i)) (eq_sym Hx)).
  - apply step_functional.
    + apply in_or_app. left.
      apply (adam_entries_in _ _ _ _ _ _ _ i p g); [exact Hpg|].
      rewrite adam_body_eq, <- Hv, <- Hm. right. right. now left.
    + intros e' He'. apply Hcase in He'.
      destruct He' as [[Hx _]|(i' & p' & g' & Hp' & Hg' & Hc)].
      * exfalso. exact (proj2 (proj2 (Hfresh i p Hp 0%nat)) Hx).
      * destruct Hc as [[Hx ->]|[[Hx ->]|[Hx ->]]].
        -- exfalso. exact (proj1 (Hfresh i p Hp i') Hx).
        -- exfalso. exact (proj1 (proj2 (Hfresh i p Hp i')) Hx).
        -- subst p'. same_index. replace g' with g by congruence.
           reflexivity.
Qed.

Lemma adam_step_counter pgs lr beta1 beta2 epsilon t n s j :
  step (adam_entries lr beta1 beta2 epsilon t n pgs
          ++ [(t, Add (Shared t) (Const 1))]) s t j
  = s t j + 1.
Proof. rewrite step_last. reflexivity. Qed.

Lemma zip3_step_hyper (body : var * expr * var -> list update)
  (ev ep : var -> expr -> var -> expr) cost params st s :
  (forall p g v, body (p, g, v) = [(v, ev p g v); (p, ep p g v)]) ->
  allocated st params ->
  let us := flat_map body
              (zip3 params (T_grad cost params)
                 (seq (next_id st + 2) (length params))) in
  step us s (first_var st) = s (first_var st)
  /\ step us s (second_var st) = s (second_var st).
Proof.
  intros Hbody Hall us. unfold first_var, second_var.
  split; apply step_untouched; intros e He; apply in_flat_zip3 in He;
    destruct He as (i' & p' & g' & v' & Hp' & Hg' & Hv' & He);
    rewrite Hbody in He; index_facts;
    destruct He as [He|[He|[]]]; inversion He; subst; lia.
Qed.

Lemma zip4_step_hyper (body : var * expr * var * var -> list update)
  (ea ed ep : var -> expr -> var -> var -> expr) cost params st s :
  (forall p g a d,
      body (p, g, a, d) = [(a, ea p g a d); (d, ed p g a d); (p, ep p g a d)])
  ->
  allocated st params ->
  let us := flat_map body
              (zip4 params (T_grad cost params)
                 (seq (next_id st + 2) (length params))
                 (seq (next_id st + 2 + length params) (length params))) in
  step us s (first_var st) = s (first_var st)
  /\ step us s (second_var st) = s (second_var st).
Proof.
  intros Hbody Hall us. unfold first_var, second_var.
  split; apply step_untouched; intros e He; apply in_flat_zip4 in He;
    destruct He as (i' & p' & g' & a' & d' & Hp' & Hg' & Ha' & Hd' & He);
    rewrite Hbody in He; index_facts;
    destruct He as [He|[He|[He|[]]]]; inversion He; subst; lia.
Qed.

Lemma sgdmomentum_body_eq lr momentum p g v :
  sgdmomentum_body lr momentum (p, g, v)
  = [(v, Sub (Mul (Shared momentum) (Shared v)) (Mul (Shared lr) g));
     (p, Add (Shared p)
           (Sub (Mul (Shared momentum) (Shared v)) (Mul (Shared lr) g)))].
Proof. reflexivity. Qed.

Lemma adagrad_body_eq lr epsilon p g v :
  adagrad_body lr epsilon (p, g, v)
  = [(v, Add (Shared v) (Pow g (Const 2)));
     (p, Sub (Shared p)
           (Div (Mul (Shared lr) g)
                (Sqrt (Add (Add (Shared v) (Pow g (Const 2)))
                           (Shared epsilon)))))].
Proof. reflexivity. Qed.

Lemma adadelta_body_eq rho epsilon p g a d :
  adadelta_body rho epsilon (p, g, a, d)
  = [(a, Add (Mul (Shared rho) (Shared a))
             (Mul (Sub (Const 1) (Shared rho)) (Pow g (Const 2))));
     (d, Add (Mul (Shared rho) (Shared d))
             (Mul (Sub (Const 1) (Shared rho))
                  (Pow (Mul (Neg (Sqrt
                           (Div (Add (Shared d) (Shared epsilon))
                                (Add (Add (Mul (Shared rho) (Shared a))
                                        (Mul (Sub (Const 1) (Shared rho))
                                             (Pow g (Const 2))))
                                     (Shared epsilon))))) g)
                       (Const 2))));
     (p, Add (Shared p)
             (Mul (Neg (Sqrt
                     (Div (Add (Shared d) (Shared epsilon))
                          (Add (Add (Mul (Shared rho) (Shared a))
                                  (Mul (Sub (Const 1) (Shared rho))
                                       (Pow g (Const 2))))
                               (Shared epsilon))))) g))].
Proof. reflexivity. Qed.

(** ** The claims *)

(** C7.  MomentumDescent: for every parameter, one step computes
    [velocity_new = momentum * velocity - lr * gradient] from the old
    velocity and [param_new = param + velocity_new].  GradientDescent: one
    step computes [param_new = param - lr * gradient] and changes no other
    variable, so it keeps no auxiliary state and does not depend on earlier
    calls. *)
Theorem momentum_and_sgd_step cost params lr momentum st :
  NoDup params -> allocated st params -> momentum_ok momentum = true ->
  (exists updates st',
      sgdmomentum T_grad cost params lr momentum st = Return (updates, st')
      /\ holds (contents st') (first_var st) lr
      /\ holds (contents st') (second_var st) momentum
      /\ (forall i j, (i < length params)%nat ->
                      contents st' (aux_var st i) j = 0)
      /\ forall s,
          holds s (first_var st) lr -> holds s (second_var st) momentum ->
          holds (step updates s) (first_var st) lr
          /\ holds (step updates s) (second_var st) momentum
          /\ forall i p g,
              nth_error params i = Some p ->
              nth_error (T_grad cost params) i = Some g ->
              forall j,
                let velocity := s (aux_var st i) j in
                let gradient := eval s g j in
                let velocity_new := momentum * velocity - lr * gradient in
                step updates s (aux_var st i) j = velocity_new
                /\ step updates s p j = s p j + velocity_new)
  /\
  (exists updates st',
      sgd T_grad cost params lr st = Return (updates, st')
      /\ holds (contents st') (first_var st) lr
      /\ forall s,
          holds s (first_var st) lr ->
          (forall x, ~ In x params -> step updates s x = s x)
          /\ forall i p g,
              nth_error params i = Some p ->
              nth_error (T_grad cost params) i = Some g ->
              forall j, step updates s p j = s p j - lr * eval s g j).
Proof.
  intros Hnd Hall Hok. split.
  - destruct (sgdmomentum_run cost params lr momentum st Hok)
      as (st' & Hrun & Hlr & Hmom & Hsame & Hz).
    eexists. exists st'. split; [exact Hrun|].
    split; [exact Hlr|]. split; [exact Hmom|]. split.
    { intros i j Hi. apply Hz. unfold aux_var. lia. }
    intros s Hslr Hsmom.
    destruct (zip3_step_hyper _ _ _ cost params st s
                (sgdmomentum_body_eq (first_var st) (second_var st)) Hall)
      as [H1 H2].
    split; [intros j; rewrite H1; apply Hslr|].
    split; [intros j; rewrite H2; apply Hsmom|].
    intros i p g Hp Hg j.
    destruct (zip3_step _ _ _ cost params st s i p g
                (sgdmomentum_body_eq (first_var st) (second_var st))
                Hnd Hall Hp Hg) as (Hv & Hpar & _).
    rewrite Hv, Hpar. simpl. rewrite (Hslr j), (Hsmom j). split; reflexivity.
  - eexists. eexists. split; [apply sgd_run|]. split.
    { intros j. simpl. now rewrite upd_same. }
    intros s Hslr. split.
    + intros x Hx. now apply sgd_step_other.
    + intros i p g Hp Hg j.
      rewrite (sgd_step_param cost params st s i p g Hnd Hall Hp Hg).
      simpl. now rewrite (Hslr j).
Qed.

(** C6.  Adagrad: for every parameter, one step computes
    [gsum_new = gsum + gradient^2] and
    [param_new = param - lr * gradient / sqrt (gsum_new + epsilon)]:
    epsilon is inside the square root, next to the new [gsum]. *)
Theorem adagrad_step cost params lr epsilon st :
  NoDup params -> allocated st params ->
  exists updates st',
    adagrad T_grad cost params lr epsilon st = Return (updates, st')
    /\ holds (contents st') (first_var st) lr
    /\ holds (contents st') (second_var st) epsilon
    /\ (forall i j, (i < length params)%nat ->
                    contents st' (aux_var st i) j = 0)
    /\ forall s,
        holds s (first_var st) lr -> holds s (second_var st) epsilon ->
        holds (step updates s) (first_var st) lr
        /\ holds (step updates s) (second_var st) epsilon
        /\ forall i p g,
            nth_error params i = Some p ->
            nth_error (T_grad cost params) i = Some g ->
            forall j,
              let gsum := s (aux_var st i) j in
              let gradient := eval s g j in
              let gsum_new := gsum + gradient ^ 2 in
              step updates s (aux_var st i) j = gsum_new
              /\ step updates s p j
                 = s p j - lr * gradient / sqrt (gsum_new + epsilon).
Proof.
  intros Hnd Hall.
  destruct (adagrad_run cost params lr epsilon st)
    as (st' & Hrun & Hlr & Heps & Hsame & Hz).
  eexists. exists st'. split; [exact Hrun|].
  split; [exact Hlr|]. split; [exact Heps|]. split.
  { intros i j Hi. apply Hz. unfold aux_var. lia. }
  intros s Hslr Hseps.
  destruct (zip3_step_hyper _ _ _ cost params st s
              (adagrad_body_eq (first_var st) (second_var st)) Hall)
    as [H1 H2].
  split; [intros j; rewrite H1; apply Hslr|].
  split; [intros j; rewrite H2; apply Hseps|].
  intros i p g Hp Hg j.
  destruct (zip3_step _ _ _ cost params st s i p g
              (adagrad_body_eq (first_var st) (second_var st))
              Hnd Hall Hp Hg) as (Hv & Hpar & _).
  rewrite Hv, Hpar. simpl. rewrite (Hslr j), (Hseps j), Rpow_2.
  split; reflexivity.
Qed.

(** C2.  Adadelta: for every parameter, one step computes
    [accu_gradient_new = rho * accu_gradient + (1 - rho) * gradient^2],
    [delta = - sqrt ((accu_delta + epsilon) / (accu_gradient_new + epsilon))
             * gradient] from the accu_delta held before the step,
    [accu_delta_new = rho * accu_delta + (1 - rho) * delta^2] from that
    delta, and [param_new = param + delta]. *)
Theorem adadelta_step cost params rho epsilon st :
  NoDup params -> allocated st params ->
  exists updates st',
    adadelta T_grad cost params rho epsilon st = Return (updates, st')
    /\ holds (contents st') (first_var st) rho
    /\ holds (contents st') (second_var st) epsilon
    /\ (forall i j, (i < length params)%nat ->
                    contents st' (aux_var st i) j = 0
                    /\ contents st' (aux2_var st (length params) i) j = 0)
    /\ forall s,
        holds s (first_var st) rho -> holds s (second_var st) epsilon ->
        holds (step updates s) (first_var st) rho
        /\ holds (step updates s) (second_var st) epsilon
        /\ forall i p g,
            nth_error params i = Some p ->
            nth_error (T_grad cost params) i = Some g ->
            forall j,
              let accu_gradient := s (aux_var st i) j in
              let accu_delta := s (aux2_var st (length params) i) j in
              let gradient := eval s g j in
              let accu_gradient_new :=
                rho * accu_gradient + (1 - rho) * gradient ^ 2 in
              let delta :=
                - sqrt ((accu_delta + epsilon)
                        / (accu_gradient_new + epsilon)) * gradient in
              let accu_delta_new :=
                rho * accu_delta + (1 - rho) * delta ^ 2 in
              step updates s (aux_var st i) j = accu_gradient_new
              /\ step updates s (aux2_var st (length params) i) j
                 = accu_delta_new
              /\ step updates s p j = s p j + delta.
Proof.
  intros Hnd Hall.
  destruct (adadelta_run cost params rho epsilon st)
    as (st' & Hrun & Hrho & Heps & Hsame & Hz).
  eexists. exists st'. split; [exact Hrun|].
  split; [exact Hrho|]. split; [exact Heps|]. split.
  { intros i j Hi. split; apply Hz; unfold aux_var, aux2_var; lia. }
  intros s Hsrho Hseps.
  destruct (zip4_step_hyper _ _ _ _ cost params st s
              (adadelta_body_eq (first_var st) (second_var st)) Hall)
    as [H1 H2].
  split; [intros j; rewrite H1; apply Hsrho|].
  split; [intros j; rewrite H2; apply Hseps|].
  intros i p g Hp Hg j.
  destruct (zip4_step _ _ _ _ cost params st s i p g
              (adadelta_body_eq (first_var st) (second_var st))
              Hnd Hall Hp Hg) as (Ha & Hd & Hpar & _).
  rewrite Ha, Hd, Hpar. simpl.
  rewrite (Hsrho j), (Hseps j), !Rpow_2. repeat split; reflexivity.
Qed.

(** C1.  Adam: for every parameter, one step computes
    [m_new = beta1 * m + (1 - beta1) * gradient],
    [v_new = beta2 * v + (1 - beta2) * gradient^2],
    [m_hat = m_new / (1 - beta1^t)], [v_hat = v_new / (1 - beta2^t)] with
    the value that [t] has before the step increments it, and
    [param_new = param - lr * m_hat / (sqrt v_hat + epsilon)]: epsilon is
    added after the square root.  [m] and [v] are zero at construction. *)
Theorem adam_step_recurrence cost params lr beta1 beta2 epsilon st :
  NoDup params -> allocated st params ->
  exists updates st',
    adam T_grad cost params lr beta1 beta2 epsilon st
    = Return (updates, st')
    /\ forall i p g,
        nth_error params i = Some p ->
        nth_error (T_grad cost params) i = Some g ->
        forall s j,
          (contents st' (adam_m st i) j = 0
           /\ contents st' (adam_v st i) j = 0) /\
          let t := s (first_var st) j in
          let m := s (adam_m st i) j in
          let v := s (adam_v st i) j in
          let gradient := eval s g j in
          let m_new := beta1 * m + (1 - beta1) * gradient in
          let v_new := beta2 * v + (1 - beta2) * gradient ^ 2 in
          let m_hat := m_new / (1 - Rpow beta1 t) in
          let v_hat := v_new / (1 - Rpow beta2 t) in
          step updates s (adam_m st i) j = m_new
          /\ step updates s (adam_v st i) j = v_new
          /\ step updates s p j
             = s p j - lr * m_hat / (sqrt v_hat + epsilon)
          /\ step updates s (first_var st) j = t + 1.
Proof.
  intros Hnd Hall.
  destruct (adam_run cost params lr beta1 beta2 epsilon st)
    as (st' & Hrun & _ & _ & Hz).
  eexists. exists st'. split; [exact Hrun|].
  intros i p g Hp Hg s j.
  assert (Hi : (i < length (combine params (T_grad cost params)))%nat).
  { apply nth_error_Some.
    rewrite (proj2 (nth_error_combine _ _ i p g) (conj Hp Hg)).
    discriminate. }
  split.
  { split; apply Hz; unfold adam_m, adam_v; lia. }
  destruct (adam_step cost params lr beta1 beta2 epsilon st s i p g
              Hnd Hall Hp Hg) as (Hm & Hv & Hpar).
  rewrite Hm, Hv, Hpar, adam_step_counter. simpl. rewrite !Rpow_2.
  repeat split; reflexivity.
Qed.

Lemma steps_counter us t k s j :
  steps (us ++ [(t, Add (Shared t) (Const 1))]) k s t j = s t j + INR k.
Proof.
  induction k as [|k IH].
  - simpl. lra.
  - change (steps (us ++ [(t, Add (Shared t) (Const 1))]) (S k) s)
      with (step (us ++ [(t, Add (Shared t) (Const 1))])
              (steps (us ++ [(t, Add (Shared t) (Const 1))]) k s)).
    rewrite step_last. simpl eval. rewrite IH, S_INR. lra.
Qed.

(** C5.  Adam's counter [t] is one shared scalar: it holds 1 after
    construction; in a step every parameter's update reads the value that
    [t] has before the step, and the step adds exactly 1 to it, once,
    whatever the number of parameters.  So after [k] steps it is [1 + k]:
    it never decreases and is never 0. *)
Theorem adam_counter cost params lr beta1 beta2 epsilon st :
  NoDup params -> allocated st params ->
  exists updates st',
    adam T_grad cost params lr beta1 beta2 epsilon st
    = Return (updates, st')
    /\ holds (contents st') (first_var st) 1
    /\ (forall s j,
           step updates s (first_var st) j = s (first_var st) j + 1)
    /\ (forall s i p g,
           nth_error params i = Some p ->
           nth_error (T_grad cost params) i = Some g ->
           forall j,
             let t := s (first_var st) j in
             let m_new := eval s (adam_m_new beta1 (adam_m st i) g) j in
             let v_new := eval s (adam_v_new beta2 (adam_v st i) g) j in
             step updates s p j
             = s p j
               - lr * (m_new / (1 - Rpow beta1 t))
                 / (sqrt (v_new / (1 - Rpow beta2 t)) + epsilon))
    /\ forall k j,
        steps updates k (contents st') (first_var st) j = 1 + INR k
        /\ steps updates k (contents st') (first_var st) j <> 0
        /\ steps updates k (contents st') (first_var st) j
           <= steps updates (S k) (contents st') (first_var st) j.
Proof.
  intros Hnd Hall.
  destruct (adam_run cost params lr beta1 beta2 epsilon st)
    as (st' & Hrun & Hone & _).
  eexists. exists st'. split; [exact Hrun|]. split; [exact Hone|].
  split; [|split].
  - intros s j. apply adam_step_counter.
  - intros s i p g Hp Hg j.
    destruct (adam_step cost params lr beta1 beta2 epsilon st s i p g
                Hnd Hall Hp Hg) as (_ & _ & Hpar).
    rewrite Hpar. reflexivity.
  - intros k j. rewrite !steps_counter, (Hone j), S_INR.
    pose proof (pos_INR k). repeat split; lra.
Qed.

(** The entries of each update list, for the checked steps. *)
Lemma sgd_sole cost params st i p g :
  NoDup params ->
  nth_error params i = Some p ->
  nth_error (T_grad cost params) i = Some g ->
  sole_update
    (flat_map (sgd_body (first_var st))
       (combine params (T_grad cost params)))
    p (Sub (Shared p) (Mul (Shared (first_var st)) g)).
Proof.
  intros Hnd Hp Hg. split.
  - apply in_flat_map. exists (p, g). split.
    + now apply nth_combine_in with i.
    + now left.
  - intros e' He'. apply in_flat_combine in He'.
    destruct He' as (i' & p' & g' & Hp' & Hg' & Hin).
    simpl in Hin. destruct Hin as [Hin|[]]. inversion Hin; subst.
    same_index. congruence.
Qed.

Lemma zip3_sole (body : var * expr * var -> list update)
  (ev ep : var -> expr -> var -> expr) cost params st i p g :
  (forall p g v, body (p, g, v) = [(v, ev p g v); (p, ep p g v)]) ->
  NoDup params -> allocated st params ->
  nth_error params i = Some p ->
  nth_error (T_grad cost params) i = Some g ->
  let us := flat_map body
              (zip3 params (T_grad cost params)
                 (seq (next_id st + 2) (length params))) in
  sole_update us (aux_var st i) (ev p g (aux_var st i))
  /\ sole_update us p (ep p g (aux_var st i)).
Proof.
  intros Hbody Hnd Hall Hp Hg us.
  assert (Hi : (i < length params)%nat)
    by (apply nth_error_Some; congruence).
  assert (Hv : nth_error (seq (next_id st + 2) (length params)) i
               = Some (aux_var st i)) by (now apply nth_seq_lt).
  assert (Hin : In (p, g, aux_var st i)
                  (zip3 params (T_grad cost params)
                     (seq (next_id st + 2) (length params))))
    by (now apply nth_zip3_in with i).
  unfold aux_var in *. split; split.
  - apply in_flat_map. eexists. split; [exact Hin|].
    rewrite Hbody. now left.
  - intros e' He'. apply in_flat_zip3 in He'.
    destruct He' as (i' & p' & g' & v' & Hp' & Hg' & Hv' & He').
    rewrite Hbody in He'. index_facts.
    destruct He' as [He'|[He'|[]]]; inversion He'; subst.
    + assert (i' = i) by lia. subst i'.
      replace p' with p by congruence. replace g' with g by congruence.
      reflexivity.
    + lia.
  - apply in_flat_map. eexists. split; [exact Hin|].
    rewrite Hbody. right. now left.
  - intros e' He'. apply in_flat_zip3 in He'.
    destruct He' as (i' & p' & g' & v' & Hp' & Hg' & Hv' & He').
    rewrite Hbody in He'. index_facts.
    destruct He' as [He'|[He'|[]]]; inversion He'; subst.
    + lia.
    + same_index. replace g' with g by congruence. reflexivity.
Qed.

Lemma zip4_sole (body : var * expr * var * var -> list update)
  (ea ed ep : var -> expr -> var -> var -> expr) cost params st i p g :
  (forall p g a d,
      body (p, g, a, d) = [(a, ea p g a d); (d, ed p g a d); (p, ep p g a d)])
  ->
  NoDup params -> allocated st params ->
  nth_error params i = Some p ->
  nth_error (T_grad cost params) i = Some g ->
  let us := flat_map body
              (zip4 params (T_grad cost params)
                 (seq (next_id st + 2) (length params))
                 (seq (next_id st + 2 + length params) (length params))) in
  let a := aux_var st i in
  let d := aux2_var st (length params) i in
  sole_update us a (ea p g a d)
  /\ sole_update us d (ed p g a d)
  /\ sole_update us p (ep p g a d).
Proof.
  intros Hbody Hnd Hall Hp Hg us a d.
  assert (Hi : (i < length params)%nat)
    by (apply nth_error_Some; congruence).
  assert (Ha : nth_error (seq (next_id st + 2) (length params)) i = Some a)
    by (now apply nth_seq_lt).
  assert (Hd : nth_error
                 (seq (next_id st + 2 + length params) (length params)) i
               = Some d) by (now apply nth_seq_lt).
  assert (Hin : In (p, g, a, d)
                  (zip4 params (T_grad cost params)
                     (seq (next_id st + 2) (length params))
                     (seq (next_id st + 2 + length params) (length params))))
    by (now apply nth_zip4_in with i).
  subst a d. unfold aux_var, aux2_var in *.
  split; [|split]; split.
  - apply in_flat_map. eexists. split; [exact Hin|].
    rewrite Hbody. now left.
  - intros e' He'. apply in_flat_zip4 in He'.
    destruct He' as (i' & p' & g' & a' & d' & Hp' & Hg' & Ha' & Hd' & He').
    rewrite Hbody in He'. index_facts.
    destruct He' as [He'|[He'|[He'|[]]]]; inversion He'; subst; try lia.
    assert (i' = i) by lia. subst i'.
    replace p' with p by congruence. replace g' with g by congruence.
    reflexivity.
  - apply in_flat_map. eexists. split; [exact Hin|].
    rewrite Hbody. right. now left.
  - intros e' He'. apply in_flat_zip4 in He'.
    destruct He' as (i' & p' & g' & a' & d' & Hp' & Hg' & Ha' & Hd' & He').
    rewrite Hbody in He'. index_facts.
    destruct He' as [He'|[He'|[He'|[]]]]; inversion He'; subst; try lia.
    assert (i' = i) by lia. subst i'.
    replace p' with p by congruence. replace g' with g by congruence.
    reflexivity.
  - apply in_flat_map. eexists. split; [exact Hin|].
    rewrite Hbody. right. right. now left.
  - intros e' He'. apply in_flat_zip4 in He'.
    destruct He' as (i' & p' & g' & a' & d' & Hp' & Hg' & Ha' & Hd' & He').
    rewrite Hbody in He'. index_facts.
    destruct He' as [He'|[He'|[He'|[]]]]; inversion He'; subst; try lia.
    same_index. replace g' with g by congruence. reflexivity.
Qed.

Lemma adam_sole cost params lr beta1 beta2 epsilon st i p g :
  NoDup params -> allocated st params ->
  nth_error params i = Some p ->
  nth_error (T_grad cost params) i = Some g ->
  let t := first_var st in
  let us := adam_entries lr beta1 beta2 epsilon t (S (next_id st))
              (combine params (T_grad cost params))
            ++ [(t, Add (Shared t) (Const 1))] in
  sole_update us (adam_m st i) (adam_m_new beta1 (adam_m st i) g)
  /\ sole_update us (adam_v st i) (adam_v_new beta2 (adam_v st i) g)
  /\ sole_update us p
       (adam_theta lr beta1 beta2 epsilon t (adam_m st i) (adam_v st i) p g).
Proof.
  intros Hnd Hall Hp Hg t us.
  assert (Hpg : nth_error (combine params (T_grad cost params)) i
                = Some (p, g)) by (now apply nth_error_combine).
  pose proof (allocated_nth _ _ _ _ Hall Hp) as Hlt.
  assert (Hm : adam_m st i = (S (next_id st) + 2 * i)%nat)
    by (unfold adam_m; lia).
  assert (Hv : adam_v st i = S (S (next_id st) + 2 * i))
    by (unfold adam_v; lia).
  assert (Hcase : forall x e',
             In (x, e') us ->
             (x = t /\ e' = Add (Shared t) (Const 1))
             \/ exists i' p' g',
                 nth_error params i' = Some p'
                 /\ nth_error (T_grad cost params) i' = Some g'
                 /\ ((x = adam_m st i'
                      /\ e' = adam_m_new beta1 (adam_m st i') g')
                     \/ (x = adam_v st i'
                         /\ e' = adam_v_new beta2 (adam_v st i') g')
                     \/ (x = p'
                         /\ e' = adam_theta lr beta1 beta2 epsilon t
                                   (adam_m st i') (adam_v st i') p' g'))).
  { intros x e' He'. apply in_app_or in He'. destruct He' as [He'|He'].
    - right. apply in_adam_entries in He'.
      destruct He' as (i' & p' & g' & Hi' & Hin).
      apply nth_error_combine in Hi'. destruct Hi' as [Hp' Hg'].
      exists i', p', g'. split; [exact Hp'|]. split; [exact Hg'|].
      assert (Hm' : adam_m st i' = (S (next_id st) + 2 * i')%nat)
        by (unfold adam_m; lia).
      assert (Hv' : adam_v st i' = S (S (next_id st) + 2 * i'))
        by (unfold adam_v; lia).
      rewrite Hm', Hv'. rewrite adam_body_eq in Hin.
      destruct Hin as [Hin|[Hin|[Hin|[]]]]; inversion Hin; subst; auto.
    - left. destruct He' as [He'|[]]. inversion He'; auto. }
  assert (Hidx : forall i', adam_m st i' = adam_m st i -> i' = i)
    by (unfold adam_m; intros; lia).
  assert (Hidx' : forall i', adam_v st i' = adam_v st i -> i' = i)
    by (unfold adam_v; intros; lia).
  assert (Hmv : forall i' j', adam_m st i' <> adam_v st j')
    by (unfold adam_m, adam_v; intros; lia).
  assert (Hmt : forall i', adam_m st i' <> t /\ adam_v st i' <> t)
    by (unfold adam_m, adam_v, t, first_var; intros; lia).
  assert (Hfresh : forall i' p', nth_error params i' = Some p' ->
             forall j', p' <> adam_m st j' /\ p' <> adam_v st j' /\ p' <> t).
  { intros i' p' Hp' j'. pose proof (allocated_nth _ _ _ _ Hall Hp').
    unfold adam_m, adam_v, t, first_var. lia. }
  split; [|split]; split.
  - apply in_or_app. left.
    apply (adam_entries_in _ _ _ _ _ _ _ i p g); [exact Hpg|].
    rewrite adam_body_eq, <- Hm. now left.
  - intros e' He'. apply Hcase in He'.
    destruct He' as [[Hx _]|(i' & p' & g' & Hp' & Hg' & Hc)].
    + exfalso. exact (proj1 (Hmt i) Hx).
    + destruct Hc as [[Hx ->]|[[Hx ->]|[Hx ->]]].
      * symmetry in Hx. apply Hidx in Hx. subst i'.
        replace g' with g by congruence. reflexivity.
      * exfalso. exact (Hmv i i' Hx).
      * exfalso. exact (proj1 (Hfresh i' p' Hp' i) (eq_sym Hx)).
  - apply in_or_app. left.
    apply (adam_entries_in _ _ _ _ _ _ _ i p g); [exact Hpg|].
    rewrite adam_body_eq, <- Hv. right. now left.
  - intros e' He'. apply Hcase in He'.
    destruct He' as [[Hx _]|(i' & p' & g' & Hp' & Hg' & Hc)].
    + exfalso. exact (proj2 (Hmt i) Hx).
    + destruct Hc as [[Hx ->]|[[Hx ->]|[Hx ->]]].
      * exfalso. exact (Hmv i' i (eq_sym Hx)).
      * symmetry in Hx. apply Hidx' in Hx. subst i'.
        replace g' with g by congruence. reflexivity.
      * exfalso.
        exact (proj1 (proj2 (Hfresh i' p' Hp' i)) (eq_sym Hx)).
  - apply in_or_app. left.
    apply (adam_entries_in _ _ _ _ _ _ _ i p g); [exact Hpg|].
    rewrite adam_body_eq, <- Hv, <- Hm. right. right. now left.
  - intros e' He'. apply Hcase in He'.
    destruct He' as [[Hx _]|(i' & p' & g' & Hp' & Hg' & Hc)].
    + exfalso. exact (proj2 (proj2 (Hfresh i p Hp 0%nat)) Hx).
    + destruct Hc as [[Hx ->]|[[Hx ->]|[Hx ->]]].
      * exfalso. exact (proj1 (Hfresh i p Hp i') Hx).
      * exfalso. exact (proj1 (proj2 (Hfresh i p Hp i')) Hx).
      * subst p'. same_index. replace g' with g by congruence.
        reflexivity.
Qed.

(** C8, as amended.  When no denominator vanishes ([epsilon] positive;
    for adam, [t] a natural number [n] with [1 - beta1^n] and [1 - beta2^n]
    non-zero), one step of any of the five optimisers with a zero gradient
    and zero auxiliary state gives the parameter a real value, the value
    it had; the auxiliary state stays zero and adam's [t] still moves on. *)
Theorem zero_gradient_noop cost params lr momentum rho beta1 beta2 epsilon
  st :
  NoDup params -> allocated st params -> momentum_ok momentum = true ->
  0 < epsilon ->
  (exists updates st',
      sgd T_grad cost params lr st = Return (updates, st')
      /\ forall s i p g j,
          nth_error params i = Some p ->
          nth_error (T_grad cost params) i = Some g ->
          eval_checked s g j = Some 0 ->
          step_checked updates s p j = Some (s p j))
  /\
  (exists updates st',
      sgdmomentum T_grad cost params lr momentum st = Return (updates, st')
      /\ forall s i p g j,
          nth_error params i = Some p ->
          nth_error (T_grad cost params) i = Some g ->
          eval_checked s g j = Some 0 -> s (aux_var st i) j = 0 ->
          step_checked updates s p j = Some (s p j)
          /\ step_checked updates s (aux_var st i) j = Some 0)
  /\
  (exists updates st',
      adagrad T_grad cost params lr epsilon st = Return (updates, st')
      /\ forall s i p g j,
          holds s (second_var st) epsilon ->
          nth_error params i = Some p ->
          nth_error (T_grad cost params) i = Some g ->
          eval_checked s g j = Some 0 -> s (aux_var st i) j = 0 ->
          step_checked updates s p j = Some (s p j)
          /\ step_checked updates s (aux_var st i) j = Some 0)
  /\
  (exists updates st',
      adadelta T_grad cost params rho epsilon st = Return (updates, st')
      /\ forall s i p g j,
          holds s (second_var st) epsilon ->
          nth_error params i = Some p ->
          nth_error (T_grad cost params) i = Some g ->
          eval_checked s g j = Some 0 ->
          s (aux_var st i) j = 0 ->
          s (aux2_var st (length params) i) j = 0 ->
          step_checked updates s p j = Some (s p j)
          /\ step_checked updates s (aux_var st i) j = Some 0
          /\ step_checked updates s (aux2_var st (length params) i) j
             = Some 0)
  /\
  (exists updates st',
      adam T_grad cost params lr beta1 beta2 epsilon st
      = Return (updates, st')
      /\ forall s i p g j n,
          s (first_var st) j = INR n ->
          1 - beta1 ^ n <> 0 -> 1 - beta2 ^ n <> 0 ->
          nth_error params i = Some p ->
          nth_error (T_grad cost params) i = Some g ->
          eval_checked s g j = Some 0 ->
          s (adam_m st i) j = 0 -> s (adam_v st i) j = 0 ->
          step_checked updates s p j = Some (s p j)
          /\ step_checked updates s (adam_m st i) j = Some 0
          /\ step_checked updates s (adam_v st i) j = Some 0
          /\ step_checked updates s (first_var st) j
             = Some (s (first_var st) j + 1)).
Proof.
  intros Hnd Hall Hok Heps. repeat apply conj.
  - eexists. eexists. split; [apply sgd_run|].
    intros s i p g j Hp Hg H0.
    rewrite (step_checked_sole _ _ _ _ _
               (sgd_sole cost params st i p g Hnd Hp Hg)).
    eapply eq_trans; [ec_build|]. f_equal. ring.
  - destruct (sgdmomentum_run cost params lr momentum st Hok)
      as (st' & Hrun & _).
    eexists. exists st'. split; [exact Hrun|].
    intros s i p g j Hp Hg H0 Hv0.
    destruct (zip3_sole _ _ _ cost params st i p g
                (sgdmomentum_body_eq (first_var st) (second_var st))
                Hnd Hall Hp Hg) as (Hv & Hpar).
    rewrite (step_checked_sole _ _ _ _ _ Hv).
    rewrite (step_checked_sole _ _ _ _ _ Hpar).
    split; (eapply eq_trans; [ec_build|]); rewrite Hv0; f_equal; ring.
  - destruct (adagrad_run cost params lr epsilon st) as (st' & Hrun & _).
    eexists. exists st'. split; [exact Hrun|].
    intros s i p g j Hseps Hp Hg H0 Hv0.
    destruct (zip3_sole _ _ _ cost params st i p g
                (adagrad_body_eq (first_var st) (second_var st))
                Hnd Hall Hp Hg) as (Hv & Hpar).
    rewrite (step_checked_sole _ _ _ _ _ Hv).
    rewrite (step_checked_sole _ _ _ _ _ Hpar).
    assert (Hpos : 0 < s (aux_var st i) j + 0 ^ 2 + s (second_var st) j)
      by (rewrite Hv0, (Hseps j); simpl; lra).
    split.
    + eapply eq_trans; [ec_build|].
      * lra.
      * apply Rgt_not_eq. now apply sqrt_lt_R0.
      * f_equal. unfold Rdiv. ring.
    + eapply eq_trans; [ec_build|]. rewrite Hv0. f_equal. ring.
  - destruct (adadelta_run cost params rho epsilon st) as (st' & Hrun & _).
    eexists. exists st'. split; [exact Hrun|].
    intros s i p g j Hseps Hp Hg H0 Ha0 Hd0.
    destruct (zip4_sole _ _ _ _ cost params st i p g
                (adadelta_body_eq (first_var st) (second_var st))
                Hnd Hall Hp Hg) as (Ha & Hd & Hpar).
    rewrite (step_checked_sole _ _ _ _ _ Ha).
    rewrite (step_checked_sole _ _ _ _ _ Hd).
    rewrite (step_checked_sole _ _ _ _ _ Hpar).
    assert (Hden : s (first_var st) j * s (aux_var st i) j
                   + (1 - s (first_var st) j) * 0 ^ 2
                   + s (second_var st) j = epsilon)
      by (rewrite Ha0, (Hseps j); ring).
    assert (Hquot : 0 <= (s (aux2_var st (length params) i) j
                          + s (second_var st) j)
                         / (s (first_var st) j * s (aux_var st i) j
                            + (1 - s (first_var st) j) * 0 ^ 2
                            + s (second_var st) j)).
    { rewrite Hden, Hd0, (Hseps j). apply Rlt_le.
      apply Rdiv_lt_0_compat; lra. }
    split; [|split].
    + eapply eq_trans; [ec_build|].
      * rewrite Hden. lra.
      * f_equal. ring.
    + eapply eq_trans; [ec_build|]. rewrite Ha0. f_equal. ring.
    + eapply eq_trans; [ec_build|].
      * rewrite Hden. lra.
      * rewrite Hd0. f_equal. ring.
  - destruct (adam_run cost params lr beta1 beta2 epsilon st)
      as (st' & Hrun & _).
    eexists. exists st'. split; [exact Hrun|].
    intros s i p g j n Ht Hb1 Hb2 Hp Hg H0 Hm0 Hv0.
    destruct (adam_sole cost params lr beta1 beta2 epsilon st i p g
                Hnd Hall Hp Hg) as (Hm & Hv & Hpar).
    rewrite (step_checked_sole _ _ _ _ _ Hm).
    rewrite (step_checked_sole _ _ _ _ _ Hv).
    rewrite (step_checked_sole _ _ _ _ _ Hpar).
    rewrite step_checked_last.
    assert (Hvhat : (beta2 * s (adam_v st i) j + (1 - beta2) * 0 ^ 2)
                    / (1 - beta2 ^ n) = 0)
      by (rewrite Hv0; unfold Rdiv; ring).
    split; [|split; [|split]].
    + unfold adam_theta, adam_m_new, adam_v_new.
      eapply eq_trans; [ec_build|].
      * rewrite Hvhat. lra.
      * rewrite Hvhat, sqrt_0. lra.
      * rewrite Hm0. f_equal. unfold Rdiv. ring.
    + unfold adam_m_new. eapply eq_trans; [ec_build|].
      rewrite Hm0. f_equal. ring.
    + unfold adam_v_new. eapply eq_trans; [ec_build|].
      rewrite Hv0. f_equal. ring.
    + reflexivity.
Qed.

Lemma step_size_lt a A B :
  a <> 0 -> 0 < A -> A < B -> Rabs (a / sqrt B) < Rabs (a / sqrt A).
Proof.
  intros Ha HA HAB. unfold Rdiv. rewrite !Rabs_mult.
  apply Rmult_lt_compat_l; [now apply Rabs_pos_lt|].
  rewrite !Rabs_inv. rewrite !(Rabs_pos_eq (sqrt _)) by apply sqrt_pos.
  apply Rinv_lt_contravar.
  - apply Rmult_lt_0_compat; apply sqrt_lt_R0; lra.
  - apply sqrt_lt_1_alt. lra.
Qed.

(** Adagrad run from construction under a gradient that has the same
    value [c] at every step. *)
Lemma adagrad_trajectory cost params lr epsilon st updates st' i p g c j :
  NoDup params -> allocated st params ->
  adagrad T_grad cost params lr epsilon st = Return (updates, st') ->
  nth_error params i = Some p ->
  nth_error (T_grad cost params) i = Some g ->
  (forall k, eval (steps updates k (contents st')) g j = c) ->
  forall k,
    steps updates k (contents st') (aux_var st i) j = INR k * c ^ 2
    /\ steps updates (S k) (contents st') p j
       = steps updates k (contents st') p j
         - lr * c / sqrt (INR (S k) * c ^ 2 + epsilon).
Proof.
  intros Hnd Hall Hrun Hp Hg Hc.
  destruct (adagrad_run cost params lr epsilon st)
    as (st1 & Hrun1 & Hlr & Heps & Hsame & Hz).
  rewrite Hrun in Hrun1.
  assert (Hus : updates
                = flat_map (adagrad_body (first_var st) (second_var st))
                    (zip3 params (T_grad cost params)
                       (seq (next_id st + 2) (length params))))
    by congruence.
  assert (Hst : st1 = st') by congruence. subst st1. clear Hrun1.
  assert (Hi : (i < length params)%nat)
    by (apply nth_error_Some; congruence).
  assert (Hinv : forall k,
             holds (steps updates k (contents st')) (first_var st) lr
             /\ holds (steps updates k (contents st')) (second_var st)
                  epsilon
             /\ steps updates k (contents st') (aux_var st i) j
                = INR k * c ^ 2).
  { induction k as [|k (IH1 & IH2 & IH3)].
    - simpl. split; [exact Hlr|]. split; [exact Heps|].
      rewrite Hz by (unfold aux_var; lia). ring.
    - simpl steps.
      destruct (zip3_step _ _ _ cost params st
                  (steps updates k (contents st')) i p g
                  (adagrad_body_eq (first_var st) (second_var st))
                  Hnd Hall Hp Hg) as (Hv & _ & H1 & H2).
      rewrite <- Hus in Hv, H1, H2.
      split; [intros j'; rewrite H1; apply IH1|].
      split; [intros j'; rewrite H2; apply IH2|].
      rewrite Hv. simpl eval. rewrite IH3, Hc, Rpow_2, S_INR. ring. }
  intros k. destruct (Hinv k) as (H1 & H2 & H3). split; [exact H3|].
  simpl steps.
  destruct (zip3_step _ _ _ cost params st
              (steps updates k (contents st')) i p g
              (adagrad_body_eq (first_var st) (second_var st))
              Hnd Hall Hp Hg) as (_ & Hpar & _).
  rewrite <- Hus in Hpar. rewrite Hpar. simpl eval.
  rewrite H3, Hc, Rpow_2, (H1 j), (H2 j), S_INR.
  replace (INR k * c ^ 2 + c ^ 2) with ((INR k + 1) * c ^ 2) by ring.
  reflexivity.
Qed.

(** C9, as amended.  Under Adagrad with a non-zero learning rate and a
    positive epsilon, when the gradient of a coordinate has the same
    non-zero value at every step, [gsum] grows strictly and the step size
    [|lr * gradient / sqrt (gsum_new + epsilon)|] is strictly smaller at
    each step than at the step before. *)
Theorem adagrad_step_size_decreases cost params lr epsilon st :
  NoDup params -> allocated st params -> lr <> 0 -> 0 < epsilon ->
  exists updates st',
    adagrad T_grad cost params lr epsilon st = Return (updates, st')
    /\ forall i p g c j,
        nth_error params i = Some p ->
        nth_error (T_grad cost params) i = Some g ->
        c <> 0 ->
        (forall k, eval (steps updates k (contents st')) g j = c) ->
        forall k,
          let s := fun n => steps updates n (contents st') in
          s k (aux_var st i) j < s (S k) (aux_var st i) j
          /\ Rabs (s (S k) p j - s k p j)
             = Rabs (lr * c / sqrt (s (S k) (aux_var st i) j + epsilon))
          /\ Rabs (s (S (S k)) p j - s (S k) p j)
             < Rabs (s (S k) p j - s k p j).
Proof.
  intros Hnd Hall Hlr Heps.
  destruct (adagrad_run cost params lr epsilon st) as (st' & Hrun & _).
  match type of Hrun with
  | _ = Return (?u, _) => set (updates := u) in *
  end.
  exists updates, st'. split; [exact Hrun|].
  intros i p g c j Hp Hg Hc Hfix k s.
  pose proof (adagrad_trajectory cost params lr epsilon st _ st' i p g c j
                Hnd Hall Hrun Hp Hg Hfix) as Htraj.
  destruct (Htraj k) as [Hg0 Hp0].
  destruct (Htraj (S k)) as [Hg1 Hp1].
  assert (Hc2 : 0 < c ^ 2) by (destruct (Rdichotomy _ _ Hc); simpl; nra).
  pose proof (pos_INR k) as Hk.
  unfold s. rewrite Hg0, Hg1, Hp1, Hp0, !S_INR.
  split; [nra|].
  replace (steps updates k (contents st') p j
           - lr * c / sqrt ((INR k + 1) * c ^ 2 + epsilon)
           - steps updates k (contents st') p j)
    with (- (lr * c / sqrt ((INR k + 1) * c ^ 2 + epsilon))) by ring.
  match goal with
  | |- _ /\ Rabs ?x < _ =>
      replace x
        with (- (lr * c / sqrt ((INR k + 1 + 1) * c ^ 2 + epsilon)))
        by ring
  end.
  rewrite !Rabs_Ropp. split; [reflexivity|].
  apply step_size_lt.
  - now apply Rmult_integral_contrapositive_currified.
  - nra.
  - nra.
Qed.

(** C10.  With an empty parameter list, sgd, sgdmomentum, adagrad and
    adadelta return the empty update list, and a step with it changes
    nothing; adam still returns the update of [t], so a step adds 1 to the
    counter although there is no parameter. *)
Theorem empty_parameter_list cost lr momentum rho beta1 beta2 epsilon st :
  momentum_ok momentum = true ->
  (exists st', sgd T_grad cost [] lr st = Return ([], st'))
  /\ (exists st',
         sgdmomentum T_grad cost [] lr momentum st = Return ([], st'))
  /\ (exists st', adagrad T_grad cost [] lr epsilon st = Return ([], st'))
  /\ (exists st', adadelta T_grad cost [] rho epsilon st = Return ([], st'))
  /\ (forall s, step [] s = s)
  /\ (exists st',
         adam T_grad cost [] lr beta1 beta2 epsilon st
         = Return ([(first_var st, Add (Shared (first_var st)) (Const 1))],
                   st'))
  /\ forall s j,
      step [(first_var st, Add (Shared (first_var st)) (Const 1))] s
        (first_var st) j
      = s (first_var st) j + 1.
Proof.
  intros Hok. repeat apply conj.
  - eexists. rewrite sgd_run. reflexivity.
  - destruct (sgdmomentum_run cost [] lr momentum st Hok)
      as (st' & Hrun & _).
    exists st'. rewrite Hrun. reflexivity.
  - destruct (adagrad_run cost [] lr epsilon st) as (st' & Hrun & _).
    exists st'. rewrite Hrun. reflexivity.
  - destruct (adadelta_run cost [] rho epsilon st) as (st' & Hrun & _).
    exists st'. rewrite Hrun. reflexivity.
  - reflexivity.
  - destruct (adam_run cost [] lr beta1 beta2 epsilon st)
      as (st' & Hrun & _).
    exists st'. rewrite Hrun. reflexivity.
  - intros s j. unfold step. simpl. now rewrite upd_same.
Qed.

(** C4, as amended.  Only sgdmomentum checks a hyperparameter: it fails,
    with an assertion error, exactly when momentum is outside [0, 1).
    sgd, adagrad, adadelta and adam check no hyperparameter: from the
    gradients that [T.grad] returns they build their updates for every
    epsilon, rho, beta1 and beta2. *)
Theorem hyperparameter_checks cost params st :
  (forall lr momentum,
      sgdmomentum T_grad cost params lr momentum st = Raise AssertionError
      <-> ~ (0 <= momentum < 1))
  /\ (forall lr momentum,
         raises (sgdmomentum T_grad cost params lr momentum st) = false
         <-> 0 <= momentum < 1)
  /\ (forall lr, raises (sgd T_grad cost params lr st) = false)
  /\ (forall lr epsilon,
         raises (adagrad T_grad cost params lr epsilon st) = false)
  /\ (forall rho epsilon,
         raises (adadelta T_grad cost params rho epsilon st) = false)
  /\ (forall lr beta1 beta2 epsilon,
         raises (adam T_grad cost params lr beta1 beta2 epsilon st) = false).
Proof.
  assert (Hbad : forall lr momentum,
             momentum_ok momentum = false ->
             sgdmomentum T_grad cost params lr momentum st
             = Raise AssertionError).
  { intros lr momentum Hb. unfold sgdmomentum, bind, py_assert.
    now rewrite Hb. }
  repeat apply conj.
  - intros lr momentum. rewrite <- momentum_ok_iff.
    destruct (momentum_ok momentum) eqn:Hok.
    + destruct (sgdmomentum_run cost params lr momentum st Hok)
        as (st' & Hrun & _).
      rewrite Hrun. split; [discriminate|congruence].
    + rewrite (Hbad lr momentum Hok). split; [discriminate|reflexivity].
  - intros lr momentum. rewrite <- momentum_ok_iff.
    destruct (momentum_ok momentum) eqn:Hok.
    + destruct (sgdmomentum_run cost params lr momentum st Hok)
        as (st' & Hrun & _).
      rewrite Hrun. split; reflexivity.
    + rewrite (Hbad lr momentum Hok). split; discriminate.
  - intros lr. now rewrite sgd_run.
  - intros lr epsilon.
    destruct (adagrad_run cost params lr epsilon st) as (st' & Hrun & _).
    now rewrite Hrun.
  - intros rho epsilon.
    destruct (adadelta_run cost params rho epsilon st) as (st' & Hrun & _).
    now rewrite Hrun.
  - intros lr beta1 beta2 epsilon.
    destruct (adam_run cost params lr beta1 beta2 epsilon st)
      as (st' & Hrun & _).
    now rewrite Hrun.
Qed.


End Properties.

(** ** The claims on sample inputs *)

Lemma two_params_nodup : NoDup two_params.
Proof.
  unfold two_params. repeat constructor; simpl; intuition discriminate.
Qed.

Lemma two_params_allocated : allocated store0 two_params.
Proof. unfold allocated, two_params. repeat constructor; simpl; lia. Qed.

Lemma momentum_ok_sample : momentum_ok (9 / 10) = true.
Proof. apply momentum_ok_iff. lra. Qed.

Lemma momentum_and_sgd_step_witness :
  exists updates st',
    sgdmomentum ones_grad (Const 0) two_params (1 / 2) (9 / 10) store0
    = Return (updates, st')
    /\ step updates (contents st') 1%nat 0%nat
       = contents st' 1%nat 0%nat + (9 / 10 * 0 - 1 / 2 * 1).
Proof.
  destruct (momentum_and_sgd_step ones_grad (Const 0) two_params (1 / 2)
              (9 / 10) store0 two_params_nodup two_params_allocated
              momentum_ok_sample)
    as [(u & st' & Hrun & Hlr & Hmom & Hz & Hstep) _].
  exists u, st'. split; [exact Hrun|].
  destruct (Hstep (contents st') Hlr Hmom) as (_ & _ & H).
  destruct (H 1%nat 1%nat (Const 1) eq_refl eq_refl 0%nat) as [_ Hp].
  rewrite Hp. rewrite Hz by (simpl; lia). reflexivity.
Defined.

Lemma adagrad_step_witness :
  exists updates st',
    adagrad ones_grad (Const 0) two_params (1 / 2) (1 / 10) store0
    = Return (updates, st')
    /\ step updates (contents st') 1%nat 0%nat
       = contents st' 1%nat 0%nat
         - 1 / 2 * 1 / sqrt (0 + 1 ^ 2 + 1 / 10).
Proof.
  destruct (adagrad_step ones_grad (Const 0) two_params (1 / 2) (1 / 10)
              store0 two_params_nodup two_params_allocated)
    as (u & st' & Hrun & Hlr & Heps & Hz & Hstep).
  exists u, st'. split; [exact Hrun|].
  destruct (Hstep (contents st') Hlr Heps) as (_ & _ & H).
  destruct (H 1%nat 1%nat (Const 1) eq_refl eq_refl 0%nat) as [_ Hp].
  rewrite Hp. rewrite Hz by (simpl; lia). reflexivity.
Defined.

Lemma adadelta_step_witness :
  exists updates st',
    adadelta ones_grad (Const 0) two_params (19 / 20) (1 / 10) store0
    = Return (updates, st')
    /\ step updates (contents st') 1%nat 0%nat
       = contents st' 1%nat 0%nat
         + - sqrt ((0 + 1 / 10)
                   / (19 / 20 * 0 + (1 - 19 / 20) * 1 ^ 2 + 1 / 10)) * 1.
Proof.
  destruct (adadelta_step ones_grad (Const 0) two_params (19 / 20) (1 / 10)
              store0 two_params_nodup two_params_allocated)
    as (u & st' & Hrun & Hrho & Heps & Hz & Hstep).
  exists u, st'. split; [exact Hrun|].
  destruct (Hstep (contents st') Hrho Heps) as (_ & _ & H).
  destruct (H 1%nat 1%nat (Const 1) eq_refl eq_refl 0%nat) as (_ & _ & Hp).
  rewrite Hp.
  destruct (Hz 1%nat 0%nat) as [Ha Hd]; [simpl; lia|].
  rewrite Ha, Hd. reflexivity.
Defined.

Lemma adam_step_recurrence_witness :
  exists updates st',
    adam ones_grad (Const 0) two_params (1 / 1000) (9 / 10) (999 / 1000)
      (1 / 100000000) store0
    = Return (updates, st')
    /\ forall s,
        step updates s (adam_m store0 1) 0%nat
        = 9 / 10 * s (adam_m store0 1) 0%nat + (1 - 9 / 10) * 1
        /\ step updates s (first_var store0) 0%nat
           = s (first_var store0) 0%nat + 1.
Proof.
  destruct (adam_step_recurrence ones_grad (Const 0) two_params (1 / 1000)
              (9 / 10) (999 / 1000) (1 / 100000000) store0
              two_params_nodup two_params_allocated)
    as (u & st' & Hrun & Hstep).
  exists u, st'. split; [exact Hrun|]. intros s.
  destruct (Hstep 1%nat 1%nat (Const 1) eq_refl eq_refl s 0%nat)
    as (_ & Hm & _ & _ & Ht).
  split; [exact Hm | exact Ht].
Defined.

Lemma adam_counter_witness :
  exists updates st',
    adam ones_grad (Const 0) two_params (1 / 1000) (9 / 10) (999 / 1000)
      (1 / 100000000) store0
    = Return (updates, st')
    /\ contents st' (first_var store0) 0%nat = 1
    /\ steps updates 3 (contents st') (first_var store0) 0%nat = 1 + INR 3.
Proof.
  destruct (adam_counter ones_grad (Const 0) two_params (1 / 1000)
              (9 / 10) (999 / 1000) (1 / 100000000) store0
              two_params_nodup two_params_allocated)
    as (u & st' & Hrun & Hone & _ & _ & Hk).
  exists u, st'. split; [exact Hrun|]. split; [apply Hone|].
  exact (proj1 (Hk 3%nat 0%nat)).
Defined.

Lemma zero_gradient_noop_witness :
  exists updates st',
    adagrad quadratic_grad quadratic_cost two_params (1 / 2) (1 / 10) store0
    = Return (updates, st')
    /\ step_checked updates
         (upd (upd (upd (fun _ => scalar 0) 0%nat (scalar 1)) 1%nat
                 (scalar 1)) 3%nat (scalar (1 / 10))) 1%nat 0%nat
       = Some 1.
Proof.
  assert (Heps : 0 < 1 / 10) by lra.
  destruct (zero_gradient_noop quadratic_grad quadratic_cost two_params
              (1 / 2) (9 / 10) (19 / 20) (9 / 10) (999 / 1000) (1 / 10)
              store0 two_params_nodup two_params_allocated
              momentum_ok_sample Heps)
    as (_ & _ & (u & st' & Hrun & Hstep) & _).
  exists u, st'. split; [exact Hrun|].
  assert (Hg : eval_checked
                 (upd (upd (upd (fun _ => scalar 0) 0%nat (scalar 1)) 1%nat
                         (scalar 1)) 3%nat (scalar (1 / 10)))
                 (Mul (Const 2) (Sub (Shared 1%nat) (Const 1))) 0%nat
               = Some 0).
  { simpl. f_equal. unfold upd, scalar. simpl. ring. }
  exact (proj1 (Hstep _ 1%nat 1%nat _ 0%nat (fun _ => eq_refl) eq_refl
                  eq_refl Hg eq_refl)).
Defined.

(** C8 fails as stated: adagrad accepts epsilon 0; then, with the
    parameter at 1, a zero gradient and a zero [gsum], the update divides
    [lr * 0] by [sqrt (0 + 0)], and the new value of the parameter is not a
    number, so the parameter does not keep its value. *)
Lemma adagrad_zero_epsilon_not_a_number :
  exists updates st',
    adagrad quadratic_grad quadratic_cost two_params (1 / 2) 0 store0
    = Return (updates, st')
    /\ eval_checked (contents st')
         (Mul (Const 2) (Sub (Shared 1%nat) (Const 1))) 0%nat = Some 0
    /\ contents st' (aux_var store0 1) 0%nat = 0
    /\ contents st' 1%nat 0%nat = 1
    /\ step_checked updates (contents st') 1%nat 0%nat = None.
Proof.
  destruct (adagrad_run quadratic_grad quadratic_cost two_params (1 / 2) 0
              store0) as (st' & Hrun & Hlr & Heps & Hsame & Hz).
  eexists. exists st'. split; [exact Hrun|].
  assert (Hp : contents st' 1%nat 0%nat = 1)
    by (rewrite Hsame by (simpl; lia); reflexivity).
  assert (Hgsum : contents st' (aux_var store0 1) 0%nat = 0)
    by (apply Hz; unfold aux_var; simpl; lia).
  split; [simpl; rewrite Hp; f_equal; ring|].
  split; [exact Hgsum|]. split; [exact Hp|].
  destruct (zip3_sole quadratic_grad _ _ _ quadratic_cost two_params store0
              1%nat 1%nat (Mul (Const 2) (Sub (Shared 1%nat) (Const 1)))
              (adagrad_body_eq (first_var store0) (second_var store0))
              two_params_nodup two_params_allocated eq_refl eq_refl)
    as (_ & Hpar).
  rewrite (step_checked_sole _ _ _ _ _ Hpar).
  apply ec_sub_undefined. eapply ec_div_by_zero; [ec_build|].
  eapply eq_trans; [ec_build|].
  - rewrite Hgsum, Hp, (Heps 0%nat). simpl. lra.
  - f_equal. rewrite Hgsum, Hp, (Heps 0%nat).
    replace (0 + (2 * (1 - 1)) ^ 2 + 0) with 0 by ring. apply sqrt_0.
Qed.

Lemma adagrad_step_size_decreases_witness :
  exists updates st',
    adagrad ones_grad (Const 0) two_params (1 / 2) (1 / 10) store0
    = Return (updates, st')
    /\ Rabs (steps updates 2 (contents st') 1%nat 0%nat
             - steps updates 1 (contents st') 1%nat 0%nat)
       < Rabs (steps updates 1 (contents st') 1%nat 0%nat
               - steps updates 0 (contents st') 1%nat 0%nat).
Proof.
  assert (Hlr : 1 / 2 <> 0) by lra.
  assert (Heps : 0 < 1 / 10) by lra.
  destruct (adagrad_step_size_decreases ones_grad (Const 0) two_params
              (1 / 2) (1 / 10) store0 two_params_nodup two_params_allocated
              Hlr Heps)
    as (u & st' & Hrun & Hdec).
  exists u, st'. split; [exact Hrun|].
  assert (Hc : (1 : R) <> 0) by lra.
  exact (proj2 (proj2 (Hdec 1%nat 1%nat (Const 1) 1 0%nat eq_refl eq_refl
                         Hc (fun _ => eq_refl) 0%nat))).
Defined.

(** C9 fails as stated: with learning rate 0 the parameter does not move,
    so the step size is 0 at every step and does not decrease. *)
Lemma adagrad_zero_lr_step_size_constant :
  exists updates st',
    adagrad ones_grad (Const 0) two_params 0 (1 / 10) store0
    = Return (updates, st')
    /\ (forall k, eval (steps updates k (contents st')) (Const 1) 0%nat = 1)
    /\ ~ (Rabs (steps updates 2 (contents st') 1%nat 0%nat
                - steps updates 1 (contents st') 1%nat 0%nat)
          < Rabs (steps updates 1 (contents st') 1%nat 0%nat
                  - steps updates 0 (contents st') 1%nat 0%nat)).
Proof.
  destruct (adagrad_run ones_grad (Const 0) two_params 0 (1 / 10) store0)
    as (st' & Hrun & _).
  eexists. exists st'. split; [exact Hrun|]. split; [reflexivity|].
  pose proof (adagrad_trajectory ones_grad (Const 0) two_params 0 (1 / 10)
                store0 _ st' 1%nat 1%nat (Const 1) 1 0%nat
                two_params_nodup two_params_allocated Hrun eq_refl eq_refl
                (fun _ => eq_refl)) as Htraj.
  rewrite (proj2 (Htraj 1%nat)), (proj2 (Htraj 0%nat)).
  match goal with
  | |- ~ (Rabs ?x < Rabs ?y) =>
      replace x with 0 by (unfold Rdiv; ring);
      replace y with 0 by (unfold Rdiv; ring)
  end.
  lra.
Qed.

Lemma empty_parameter_list_witness :
  (exists st',
      sgdmomentum ones_grad (Const 0) [] (1 / 2) (9 / 10) store0
      = Return ([], st'))
  /\ exists st',
      adam ones_grad (Const 0) [] (1 / 1000) (9 / 10) (999 / 1000)
        (1 / 100000000) store0
      = Return ([(2%nat, Add (Shared 2%nat) (Const 1))], st').
Proof.
  destruct (empty_parameter_list ones_grad (Const 0) (1 / 2) (9 / 10)
              (19 / 20) (9 / 10) (999 / 1000) (1 / 100000000) store0
              momentum_ok_sample)
    as (_ & Hmom & _ & _ & _ & Hadam & _).
  split; [exact Hmom | exact Hadam].
Defined.


Lemma hyperparameter_checks_witness :
  sgdmomentum ones_grad sum_cost two_params (1 / 2) 1 store0
  = Raise AssertionError
  /\ sgdmomentum ones_grad sum_cost two_params (1 / 2) (- (1 / 10)) store0
     = Raise AssertionError.
Proof.
  destruct (hyperparameter_checks ones_grad sum_cost two_params store0)
    as (H & _).
  split; apply H; lra.
Defined.

(** C4 fails as stated: adagrad with epsilon 0, adadelta with rho 2 and a
    negative epsilon, and adam with beta1 2, beta2 -1 and epsilon 0 are
    all constructed without an exception. *)
Lemma unchecked_hyperparameters_accepted :
  raises (adagrad ones_grad sum_cost two_params 1 0 store0) = false
  /\ raises (adadelta ones_grad sum_cost two_params 2 (- 1) store0) = false
  /\ raises (adam ones_grad sum_cost two_params (1 / 1000) 2 (- 1) 0
               store0) = false.
Proof.
  repeat apply conj.
  - destruct (adagrad_run ones_grad sum_cost two_params 1 0 store0)
      as (st' & Hrun & _).
    now rewrite Hrun.
  - destruct (adadelta_run ones_grad sum_cost two_params 2 (- 1) store0)
      as (st' & Hrun & _).
    now rewrite Hrun.
  - destruct (adam_run ones_grad sum_cost two_params (1 / 1000) 2 (- 1) 0
                store0) as (st' & Hrun & _).
    now rewrite Hrun.
Qed.

(** ** Further properties of the five optimisers *)

Lemma length_flat_map_const {A B} (f : A -> list B) k (l : list A) :
  (forall x, length (f x) = k) ->
  length (flat_map f l) = (k * length l)%nat.
Proof.
  intros Hf. induction l as [|x l IH]; simpl.
  - lia.
  - rewrite length_app, Hf, IH. lia.
Qed.

Lemma length_zip3 {A B C} (la : list A) (lb : list B) (lc : list C) :
  length (zip3 la lb lc)
  = Nat.min (length la) (Nat.min (length lb) (length lc)).
Proof.
  revert lb lc; induction la as [|a la IH]; intros [|b lb] [|c lc]; simpl;
    try reflexivity; try lia.
  rewrite IH. reflexivity.
Qed.

Lemma length_zip4 {A B C D} (la : list A) (lb : list B) (lc : list C)
  (ld : list D) :
  length (zip4 la lb lc ld)
  = Nat.min (length la)
      (Nat.min (length lb) (Nat.min (length lc) (length ld))).
Proof.
  revert lb lc ld; induction la as [|a la IH];
    intros [|b lb] [|c lc] [|d ld]; simpl; try reflexivity; try lia.
  rewrite IH. reflexivity.
Qed.

Lemma length_adam_entries lr beta1 beta2 epsilon t pgs : forall n,
  length (adam_entries lr beta1 beta2 epsilon t n pgs)
  = (3 * length pgs)%nat.
Proof.
  induction pgs as [|[p g] pgs IH]; intros n; simpl.
  - reflexivity.
  - rewrite IH. lia.
Qed.

(** Targets of the closed forms. *)
Lemma sgd_targets lr ps gs x :
  In x (map fst (flat_map (sgd_body lr) (combine ps gs))) -> In x ps.
Proof.
  intros H. apply in_map_iff in H. destruct H as ([y e] & Hx & Hin).
  simpl in Hx. subst y. apply in_flat_combine in Hin.
  destruct Hin as (i & p & g & Hp & _ & Hin).
  destruct Hin as [Hin|[]]. inversion Hin; subst.
  eapply nth_error_In; eauto.
Qed.

Lemma zip3_targets (body : var * expr * var -> list update)
  (ev ep : var -> expr -> var -> expr) ps (gs : list expr) a len (x : nat) :
  (forall p g v, body (p, g, v) = [(v, ev p g v); (p, ep p g v)]) ->
  In x (map fst (flat_map body (zip3 ps gs (seq a len)))) ->
  In x ps \/ (a <= x < a + len)%nat.
Proof.
  intros Hbody H. apply in_map_iff in H. destruct H as ([y e] & Hx & Hin).
  simpl in Hx. subst y. apply in_flat_zip3 in Hin.
  destruct Hin as (i & p & g & v & Hp & _ & Hv & Hin).
  rewrite Hbody in Hin. apply nth_seq_some in Hv. destruct Hv as [-> Hi].
  destruct Hin as [Hin|[Hin|[]]]; inversion Hin; subst.
  - right. lia.
  - left. eapply nth_error_In; eauto.
Qed.

Lemma zip4_targets (body : var * expr * var * var -> list update)
  (ea ed ep : var -> expr -> var -> var -> expr) ps (gs : list expr)
  a len b len' (x : nat) :
  (forall p g a d,
      body (p, g, a, d) = [(a, ea p g a d); (d, ed p g a d); (p, ep p g a d)])
  ->
  In x (map fst (flat_map body (zip4 ps gs (seq a len) (seq b len')))) ->
  In x ps \/ (a <= x < a + len)%nat \/ (b <= x < b + len')%nat.
Proof.
  intros Hbody H. apply in_map_iff in H. destruct H as ([y e] & Hx & Hin).
  simpl in Hx. subst y. apply in_flat_zip4 in Hin.
  destruct Hin as (i & p & g & a' & d' & Hp & _ & Ha & Hd & Hin).
  rewrite Hbody in Hin.
  apply nth_seq_some in Ha. destruct Ha as [-> Hi].
  apply nth_seq_some in Hd. destruct Hd as [-> Hi'].
  destruct Hin as [Hin|[Hin|[Hin|[]]]]; inversion Hin; subst.
  - right. left. lia.
  - right. right. lia.
  - left. eapply nth_error_In; eauto.
Qed.

Lemma adam_targets lr beta1 beta2 epsilon t ps (gs : list expr) n (x : nat) :
  In x (map fst (adam_entries lr beta1 beta2 epsilon t n (combine ps gs))) ->
  In x ps \/ (n <= x < n + 2 * length (combine ps gs))%nat.
Proof.
  intros H. apply in_map_iff in H. destruct H as ([y e] & Hx & Hin).
  simpl in Hx. subst y. apply in_adam_entries in Hin.
  destruct Hin as (i & p & g & Hi & Hin).
  assert (Hlt : (i < length (combine ps gs))%nat)
    by (apply nth_error_Some; congruence).
  apply nth_error_combine in Hi. destruct Hi as [Hp _].
  rewrite adam_body_eq in Hin.
  destruct Hin as [Hin|[Hin|[Hin|[]]]]; inversion Hin; subst.
  - right. lia.
  - right. lia.
  - left. eapply nth_error_In; eauto.
Qed.

(** The targets are pairwise distinct. *)
Lemma sgd_targets_nodup lr : forall ps gs,
  NoDup ps -> NoDup (map fst (flat_map (sgd_body lr) (combine ps gs))).
Proof.
  induction ps as [|p ps IH]; intros [|g gs] Hnd; simpl; try constructor.
  - intros Hin. apply sgd_targets in Hin. inversion Hnd; contradiction.
  - apply IH. now inversion Hnd.
Qed.

Lemma zip3_targets_nodup (body : var * expr * var -> list update)
  (ev ep : var -> expr -> var -> expr) :
  (forall p g v, body (p, g, v) = [(v, ev p g v); (p, ep p g v)]) ->
  forall ps (gs : list expr) a len,
    NoDup ps -> Forall (fun p => (p < a)%nat) ps ->
    NoDup (map fst (flat_map body (zip3 ps gs (seq a len)))).
Proof.
  intros Hbody. induction ps as [|p ps IH]; intros [|g gs] a [|len] Hnd Hlt;
    simpl; try constructor.
  inversion Hnd as [|? ? Hnotin Hnd']; subst.
  inversion Hlt as [|? ? Hp Hlt']; subst.
  rewrite Hbody. simpl.
  assert (Hlt'' : Forall (fun q => (q < S a)%nat) ps).
  { eapply Forall_impl; [|exact Hlt']. simpl. intros; lia. }
  constructor; [|constructor].
  - intros [Heq|Hin]; [lia|].
    apply (zip3_targets body ev ep) in Hin; [|exact Hbody].
    destruct Hin as [Hin|Hin]; [|lia].
    pose proof (proj1 (Forall_forall _ _) Hlt' a Hin) as H. simpl in H. lia.
  - intros Hin. apply (zip3_targets body ev ep) in Hin; [|exact Hbody].
    destruct Hin as [Hin|Hin]; [contradiction|lia].
  - apply IH; assumption.
Qed.

Lemma zip4_targets_nodup (body : var * expr * var * var -> list update)
  (ea ed ep : var -> expr -> var -> var -> expr) :
  (forall p g a d,
      body (p, g, a, d) = [(a, ea p g a d); (d, ed p g a d); (p, ep p g a d)])
  ->
  forall ps (gs : list expr) a len b len',
    NoDup ps -> Forall (fun p => (p < a)%nat) ps -> (a + len <= b)%nat ->
    NoDup (map fst (flat_map body (zip4 ps gs (seq a len) (seq b len')))).
Proof.
  intros Hbody.
  induction ps as [|p ps IH]; intros [|g gs] a [|len] b [|len'] Hnd Hlt Hab;
    simpl; try constructor.
  inversion Hnd as [|? ? Hnotin Hnd']; subst.
  inversion Hlt as [|? ? Hp Hlt']; subst.
  rewrite Hbody. simpl.
  assert (Hlt'' : Forall (fun q => (q < S a)%nat) ps).
  { eapply Forall_impl; [|exact Hlt']. simpl. intros; lia. }
  assert (Hmem : forall x : nat, In x ps -> (x < a)%nat).
  { intros x Hx. exact (proj1 (Forall_forall _ _) Hlt' x Hx). }
  constructor; [|constructor; [|constructor]].
  - intros [Heq|[Heq|Hin]]; [lia|lia|].
    apply (zip4_targets body ea ed ep) in Hin; [|exact Hbody].
    destruct Hin as [Hin|[Hin|Hin]]; [apply Hmem in Hin|..]; lia.
  - intros [Heq|Hin]; [lia|].
    apply (zip4_targets body ea ed ep) in Hin; [|exact Hbody].
    destruct Hin as [Hin|[Hin|Hin]]; [apply Hmem in Hin|..]; lia.
  - intros Hin. apply (zip4_targets body ea ed ep) in Hin; [|exact Hbody].
    destruct Hin as [Hin|[Hin|Hin]]; [contradiction|lia|lia].
  - apply IH; try assumption. lia.
Qed.

Lemma adam_targets_nodup lr beta1 beta2 epsilon t :
  forall ps (gs : list expr) n,
    NoDup ps -> Forall (fun p => (p < n)%nat) ps ->
    NoDup (map fst
             (adam_entries lr beta1 beta2 epsilon t n (combine ps gs))).
Proof.
  induction ps as [|p ps IH]; intros [|g gs] n Hnd Hlt; simpl;
    [constructor | constructor | constructor | ].
  inversion Hnd as [|? ? Hnotin Hnd']; subst.
  inversion Hlt as [|? ? Hp Hlt']; subst.
  assert (Hlt'' : Forall (fun q => (q < S (S n))%nat) ps).
  { eapply Forall_impl; [|exact Hlt']. simpl. intros; lia. }
  assert (Hmem : forall x : nat, In x ps -> (x < n)%nat).
  { intros x Hx. exact (proj1 (Forall_forall _ _) Hlt' x Hx). }
  constructor; [|constructor; [|constructor]].
  - intros [Heq|[Heq|Hin]]; [lia|lia|].
    apply adam_targets in Hin.
    destruct Hin as [Hin|Hin]; [apply Hmem in Hin|]; lia.
  - intros [Heq|Hin]; [lia|].
    apply adam_targets in Hin.
    destruct Hin as [Hin|Hin]; [apply Hmem in Hin|]; lia.
  - intros Hin. apply adam_targets in Hin.
    destruct Hin as [Hin|Hin]; [contradiction|lia].
  - apply IH; assumption.
Qed.

Section Construction.

Variable T_grad : expr -> list var -> list expr.

Lemma sgdmomentum_layout cost params lr momentum st :
  momentum_ok momentum = true ->
  exists st',
    sgdmomentum T_grad cost params lr momentum st
    = Return (flat_map (sgdmomentum_body (first_var st) (second_var st))
                (zip3 params (T_grad cost params)
                   (seq (next_id st + 2) (length params))), st')
    /\ next_id st' = (next_id st + 2 + length params)%nat
    /\ forall x, (x < next_id st)%nat -> contents st' x = contents st x.
Proof.
  intros Hok.
  destruct (sgdmomentum_run T_grad cost params lr momentum st Hok)
    as (st' & Hrun & _ & _ & Hsame & _).
  exists st'. split; [exact Hrun|]. split; [|exact Hsame].
  revert Hrun. unfold sgdmomentum.
  rewrite (bind_return _ _ st tt st)
    by (unfold py_assert; now rewrite Hok).
  set (st1 := mkStore (S (next_id st))
                (upd (contents st) (next_id st) (scalar lr))).
  rewrite (bind_return _ _ st (next_id st) st1) by reflexivity.
  set (st2 := mkStore (S (next_id st1))
                (upd (contents st1) (next_id st1) (scalar momentum))).
  rewrite (bind_return _ _ st1 (next_id st1) st2) by reflexivity.
  destruct (mapM_zeros_like params st2) as (st3 & Hrun3 & Hnext & _).
  rewrite (bind_return _ _ st2 _ st3 Hrun3). unfold ret. intros Heq.
  assert (Hst : st3 = st') by congruence. subst st3.
  rewrite Hnext. subst st1 st2. simpl. lia.
Qed.

Lemma adagrad_layout cost params lr epsilon st :
  exists st',
    adagrad T_grad cost params lr epsilon st
    = Return (flat_map (adagrad_body (first_var st) (second_var st))
                (zip3 params (T_grad cost params)
                   (seq (next_id st + 2) (length params))), st')
    /\ next_id st' = (next_id st + 2 + length params)%nat
    /\ forall x, (x < next_id st)%nat -> contents st' x = contents st x.
Proof.
  destruct (adagrad_run T_grad cost params lr epsilon st)
    as (st' & Hrun & _ & _ & Hsame & _).
  exists st'. split; [exact Hrun|]. split; [|exact Hsame].
  revert Hrun. unfold adagrad.
  set (st1 := mkStore (S (next_id st))
                (upd (contents st) (next_id st) (scalar lr))).
  rewrite (bind_return _ _ st (next_id st) st1) by reflexivity.
  set (st2 := mkStore (S (next_id st1))
                (upd (contents st1) (next_id st1) (scalar epsilon))).
  rewrite (bind_return _ _ st1 (next_id st1) st2) by reflexivity.
  destruct (mapM_zeros_like params st2) as (st3 & Hrun3 & Hnext & _).
  rewrite (bind_return _ _ st2 _ st3 Hrun3). unfold ret. intros Heq.
  assert (Hst : st3 = st') by congruence. subst st3.
  rewrite Hnext. subst st1 st2. simpl. lia.
Qed.

Lemma adadelta_layout cost params rho epsilon st :
  exists st',
    adadelta T_grad cost params rho epsilon st
    = Return (flat_map (adadelta_body (first_var st) (second_var st))
                (zip4 params (T_grad cost params)
                   (seq (next_id st + 2) (length params))
                   (seq (next_id st + 2 + length params) (length params))),
              st')
    /\ next_id st' = (next_id st + 2 + 2 * length params)%nat
    /\ forall x, (x < next_id st)%nat -> contents st' x = contents st x.
Proof.
  destruct (adadelta_run T_grad cost params rho epsilon st)
    as (st' & Hrun & _ & _ & Hsame & _).
  exists st'. split; [exact Hrun|]. split; [|exact Hsame].
  revert Hrun. unfold adadelta.
  set (st1 := mkStore (S (next_id st))
                (upd (contents st) (next_id st) (scalar rho))).
  rewrite (bind_return _ _ st (next_id st) st1) by reflexivity.
  set (st2 := mkStore (S (next_id st1))
                (upd (contents st1) (next_id st1) (scalar epsilon))).
  rewrite (bind_return _ _ st1 (next_id st1) st2) by reflexivity.
  destruct (mapM_zeros_like params st2) as (st3 & Hrun3 & Hnext3 & _).
  rewrite (bind_return _ _ st2 _ st3 Hrun3).
  destruct (mapM_zeros_like params st3) as (st4 & Hrun4 & Hnext4 & _).
  rewrite (bind_return _ _ st3 _ st4 Hrun4). unfold ret. intros Heq.
  assert (Hst : st4 = st') by congruence. subst st4.
  rewrite Hnext4, Hnext3. subst st1 st2. simpl. lia.
Qed.

Lemma adam_loop_next_id lr beta1 beta2 epsilon t
  (body : list update -> var * expr -> M (list update)) :
  (forall acc p g st,
      body acc (p, g) st
      = Return (acc ++ adam_body lr beta1 beta2 epsilon t
                         (next_id st) (S (next_id st)) p g,
                mkStore (S (S (next_id st)))
                  (upd (upd (contents st) (next_id st)
                          (zeros_like (contents st p)))
                     (S (next_id st)) (zeros_like (contents st p))))) ->
  forall pgs acc st r st',
    foldM body pgs acc st = Return (r, st') ->
    next_id st' = (next_id st + 2 * length pgs)%nat.
Proof.
  intros Hbody pgs; induction pgs as [|[p g] pgs IH];
    intros acc st r st' Hrun.
  - simpl in Hrun. unfold ret in Hrun.
    assert (st = st') by congruence. subst st'. simpl. lia.
  - simpl foldM in Hrun.
    rewrite (bind_return _ _ _ _ _ (Hbody acc p g st)) in Hrun.
    apply IH in Hrun. rewrite Hrun. simpl. lia.
Qed.

Lemma adam_layout cost params lr beta1 beta2 epsilon st :
  exists st',
    adam T_grad cost params lr beta1 beta2 epsilon st
    = Return (adam_entries lr beta1 beta2 epsilon (first_var st)
                (S (next_id st)) (combine params (T_grad cost params))
                ++ [(first_var st, Add (Shared (first_var st)) (Const 1))],
              st')
    /\ next_id st'
       = (next_id st + 1
          + 2 * Nat.min (length params) (length (T_grad cost params)))%nat
    /\ forall x, (x < next_id st)%nat -> contents st' x = contents st x.
Proof.
  destruct (adam_run T_grad cost params lr beta1 beta2 epsilon st)
    as (st' & Hrun & _ & Hsame & _).
  exists st'. split; [exact Hrun|]. split; [|exact Hsame].
  revert Hrun. unfold adam.
  set (st1 := mkStore (S (next_id st))
                (upd (contents st) (next_id st) (scalar 1))).
  rewrite (bind_return _ _ st (next_id st) st1) by reflexivity.
  match goal with
  | |- context [foldM ?body ?l ?a] =>
      assert (Hbody : forall acc p g st0,
                 body acc (p, g) st0
                 = Return (acc ++ adam_body lr beta1 beta2 epsilon
                                    (next_id st) (next_id st0)
                                    (S (next_id st0)) p g,
                           mkStore (S (S (next_id st0)))
                             (upd (upd (contents st0) (next_id st0)
                                     (zeros_like (contents st0 p)))
                                (S (next_id st0))
                                (zeros_like (contents st0 p)))));
      [| destruct (adam_loop lr beta1 beta2 epsilon (next_id st) body
                     Hbody l a st1) as (st2 & Hfold & _);
         pose proof (adam_loop_next_id lr beta1 beta2 epsilon (next_id st)
                       body Hbody l a st1 _ st2 Hfold) as Hnext;
         rewrite (bind_return _ _ st1 _ st2 Hfold)]
  end.
  - intros acc p g st0. cbv beta iota.
    rewrite (bind_return _ _ st0 (contents st0 p) st0) by reflexivity.
    set (st2 := mkStore (S (next_id st0))
                  (upd (contents st0) (next_id st0)
                     (zeros_like (contents st0 p)))).
    rewrite (bind_return _ _ st0 (next_id st0) st2) by reflexivity.
    rewrite (bind_return _ _ st2 (S (next_id st0))
               (mkStore (S (S (next_id st0)))
                  (upd (contents st2) (S (next_id st0))
                     (zeros_like (contents st0 p))))) by reflexivity.
    unfold ret, adam_body. subst st2. simpl. now rewrite <- !app_assoc.
  - unfold ret. intros Heq.
    assert (Hst : st2 = st') by congruence. subst st2.
    rewrite Hnext, length_combine. subst st1. simpl. lia.
Qed.

Lemma nodup_snoc {A} (l : list A) x :
  NoDup l -> ~ In x l -> NoDup (l ++ [x]).
Proof.
  induction l as [|a l IH]; intros Hnd Hx; simpl.
  - constructor; [intros []|constructor].
  - inversion Hnd as [|? ? Ha Hnd']; subst. constructor.
    + intros Hin. apply in_app_or in Hin. destruct Hin as [Hin|[Hin|[]]].
      * contradiction.
      * apply Hx. now left.
    + apply IH; [assumption|]. intros Hin. apply Hx. now right.
Qed.

Lemma in_targets (us : list update) x e :
  In (x, e) us -> In x (map fst us).
Proof. intros H. change x with (fst (x, e)). now apply in_map. Qed.

Lemma allocated_lt st params :
  allocated st params ->
  forall a, (next_id st <= a)%nat -> Forall (fun p => (p < a)%nat) params.
Proof.
  intros Hall a Ha. eapply Forall_impl; [|exact Hall].
  simpl. intros p Hp. lia.
Qed.

(** X1.  Construction allocates a fixed number of shared variables and
    touches no variable that exists already: one for sgd (lr), two plus one
    per parameter for sgdmomentum and adagrad, two plus two per parameter
    for adadelta, all whatever the number of gradients; adam allocates [t]
    and two per parameter that has a gradient. *)
Theorem construction_allocates cost params lr momentum rho beta1 beta2
  epsilon st :
  momentum_ok momentum = true ->
  let n := length params in
  let kept := fun st' : store =>
    forall x, (x < next_id st)%nat -> contents st' x = contents st x in
  (exists updates st',
      sgd T_grad cost params lr st = Return (updates, st')
      /\ next_id st' = (next_id st + 1)%nat /\ kept st')
  /\ (exists updates st',
         sgdmomentum T_grad cost params lr momentum st
         = Return (updates, st')
         /\ next_id st' = (next_id st + 2 + n)%nat /\ kept st')
  /\ (exists updates st',
         adagrad T_grad cost params lr epsilon st = Return (updates, st')
         /\ next_id st' = (next_id st + 2 + n)%nat /\ kept st')
  /\ (exists updates st',
         adadelta T_grad cost params rho epsilon st = Return (updates, st')
         /\ next_id st' = (next_id st + 2 + 2 * n)%nat /\ kept st')
  /\ (exists updates st',
         adam T_grad cost params lr beta1 beta2 epsilon st
         = Return (updates, st')
         /\ next_id st'
            = (next_id st + 1
               + 2 * Nat.min n (length (T_grad cost params)))%nat
         /\ kept st').
Proof.
  intros Hok n kept. unfold kept, n. repeat apply conj.
  - eexists. eexists. split; [apply sgd_run|]. simpl. split; [lia|].
    intros x Hx. apply upd_other. lia.
  - destruct (sgdmomentum_layout cost params lr momentum st Hok)
      as (st' & Hrun & Hnext & Hkept).
    eexists. exists st'. split; [exact Hrun|]. split; assumption.
  - destruct (adagrad_layout cost params lr epsilon st)
      as (st' & Hrun & Hnext & Hkept).
    eexists. exists st'. split; [exact Hrun|]. split; assumption.
  - destruct (adadelta_layout cost params rho epsilon st)
      as (st' & Hrun & Hnext & Hkept).
    eexists. exists st'. split; [exact Hrun|]. split; assumption.
  - destruct (adam_layout cost params lr beta1 beta2 epsilon st)
      as (st' & Hrun & Hnext & Hkept).
    eexists. exists st'. split; [exact Hrun|]. split; assumption.
Qed.

(** X2.  Size of the update lists: with [k] the number of parameters that
    have a gradient (the shorter of the two lists), sgd returns [k]
    updates, sgdmomentum and adagrad [2 * k], adadelta [3 * k] and adam
    [3 * k + 1]. *)
Theorem update_list_lengths cost params lr momentum rho beta1 beta2 epsilon
  st :
  momentum_ok momentum = true ->
  let k := Nat.min (length params) (length (T_grad cost params)) in
  (exists updates st',
      sgd T_grad cost params lr st = Return (updates, st')
      /\ length updates = k)
  /\ (exists updates st',
         sgdmomentum T_grad cost params lr momentum st
         = Return (updates, st')
         /\ length updates = (2 * k)%nat)
  /\ (exists updates st',
         adagrad T_grad cost params lr epsilon st = Return (updates, st')
         /\ length updates = (2 * k)%nat)
  /\ (exists updates st',
         adadelta T_grad cost params rho epsilon st = Return (updates, st')
         /\ length updates = (3 * k)%nat)
  /\ (exists updates st',
         adam T_grad cost params lr beta1 beta2 epsilon st
         = Return (updates, st')
         /\ length updates = (3 * k + 1)%nat).
Proof.
  intros Hok k. unfold k. repeat apply conj.
  - eexists. eexists. split; [apply sgd_run|].
    rewrite (length_flat_map_const _ 1%nat) by (intros [p g]; reflexivity).
    rewrite length_combine. lia.
  - destruct (sgdmomentum_layout cost params lr momentum st Hok)
      as (st' & Hrun & _).
    eexists. exists st'. split; [exact Hrun|].
    rewrite (length_flat_map_const _ 2%nat)
      by (intros [[p g] v]; reflexivity).
    rewrite length_zip3, length_seq. lia.
  - destruct (adagrad_layout cost params lr epsilon st) as (st' & Hrun & _).
    eexists. exists st'. split; [exact Hrun|].
    rewrite (length_flat_map_const _ 2%nat)
      by (intros [[p g] v]; reflexivity).
    rewrite length_zip3, length_seq. lia.
  - destruct (adadelta_layout cost params rho epsilon st)
      as (st' & Hrun & _).
    eexists. exists st'. split; [exact Hrun|].
    rewrite (length_flat_map_const _ 3%nat)
      by (intros [[[p g] a] d]; reflexivity).
    rewrite length_zip4, !length_seq. lia.
  - destruct (adam_layout cost params lr beta1 beta2 epsilon st)
      as (st' & Hrun & _).
    eexists. exists st'. split; [exact Hrun|].
    rewrite length_app, length_adam_entries, length_combine. simpl. lia.
Qed.

(** X3.  When the parameters are distinct and exist before construction,
    no variable is the target of two updates in any of the five update
    lists. *)
Theorem update_targets_distinct cost params lr momentum rho beta1 beta2
  epsilon st :
  NoDup params -> allocated st params -> momentum_ok momentum = true ->
  (exists updates st',
      sgd T_grad cost params lr st = Return (updates, st')
      /\ NoDup (map fst updates))
  /\ (exists updates st',
         sgdmomentum T_grad cost params lr momentum st
         = Return (updates, st')
         /\ NoDup (map fst updates))
  /\ (exists updates st',
         adagrad T_grad cost params lr epsilon st = Return (updates, st')
         /\ NoDup (map fst updates))
  /\ (exists updates st',
         adadelta T_grad cost params rho epsilon st = Return (updates, st')
         /\ NoDup (map fst updates))
  /\ (exists updates st',
         adam T_grad cost params lr beta1 beta2 epsilon st
         = Return (updates, st')
         /\ NoDup (map fst updates)).
Proof.
  intros Hnd Hall Hok. repeat apply conj.
  - eexists. eexists. split; [apply sgd_run|].
    now apply sgd_targets_nodup.
  - destruct (sgdmomentum_layout cost params lr momentum st Hok)
      as (st' & Hrun & _).
    eexists. exists st'. split; [exact Hrun|].
    apply (zip3_targets_nodup _ _ _
             (sgdmomentum_body_eq (first_var st) (second_var st)));
      [exact Hnd|].
    apply (allocated_lt st); [exact Hall | lia].
  - destruct (adagrad_layout cost params lr epsilon st) as (st' & Hrun & _).
    eexists. exists st'. split; [exact Hrun|].
    apply (zip3_targets_nodup _ _ _
             (adagrad_body_eq (first_var st) (second_var st)));
      [exact Hnd|].
    apply (allocated_lt st); [exact Hall | lia].
  - destruct (adadelta_layout cost params rho epsilon st)
      as (st' & Hrun & _).
    eexists. exists st'. split; [exact Hrun|].
    apply (zip4_targets_nodup _ _ _ _
             (adadelta_body_eq (first_var st) (second_var st)));
      [exact Hnd| |lia].
    apply (allocated_lt st); [exact Hall | lia].
  - destruct (adam_layout cost params lr beta1 beta2 epsilon st)
      as (st' & Hrun & _).
    eexists. exists st'. split; [exact Hrun|].
    rewrite map_app. simpl. apply nodup_snoc.
    + apply adam_targets_nodup; [exact Hnd|].
      apply (allocated_lt st); [exact Hall | lia].
    + intros Hin. apply adam_targets in Hin. unfold first_var in Hin.
      destruct Hin as [Hin|Hin]; [|lia].
      pose proof (proj1 (Forall_forall _ _) Hall _ Hin) as Hlt.
      simpl in Hlt. lia.
Qed.

(** X4.  A step changes nothing but the parameters and the variables that
    the optimiser allocated itself: every other variable, older or newer,
    keeps its value. *)
Theorem step_frame cost params lr momentum rho beta1 beta2 epsilon st :
  momentum_ok momentum = true ->
  let untouched := fun (updates : list update) (st' : store) =>
    forall s (x : nat),
      ~ In x params -> (x < next_id st \/ next_id st' <= x)%nat ->
      step updates s x = s x in
  (exists updates st',
      sgd T_grad cost params lr st = Return (updates, st')
      /\ untouched updates st')
  /\ (exists updates st',
         sgdmomentum T_grad cost params lr momentum st
         = Return (updates, st')
         /\ untouched updates st')
  /\ (exists updates st',
         adagrad T_grad cost params lr epsilon st = Return (updates, st')
         /\ untouched updates st')
  /\ (exists updates st',
         adadelta T_grad cost params rho epsilon st = Return (updates, st')
         /\ untouched updates st')
  /\ (exists updates st',
         adam T_grad cost params lr beta1 beta2 epsilon st
         = Return (updates, st')
         /\ untouched updates st').
Proof.
  intros Hok untouched. unfold untouched. repeat apply conj.
  - eexists. eexists. split; [apply sgd_run|].
    intros s x Hx _. now apply sgd_step_other.
  - destruct (sgdmomentum_layout cost params lr momentum st Hok)
      as (st' & Hrun & Hnext & _).
    eexists. exists st'. split; [exact Hrun|].
    intros s x Hx Hrange. apply step_untouched. intros e He.
    apply in_targets in He.
    apply (zip3_targets _ _ _ _ _ _ _ _
             (sgdmomentum_body_eq (first_var st) (second_var st))) in He.
    destruct He as [He|He]; [contradiction|lia].
  - destruct (adagrad_layout cost params lr epsilon st)
      as (st' & Hrun & Hnext & _).
    eexists. exists st'. split; [exact Hrun|].
    intros s x Hx Hrange. apply step_untouched. intros e He.
    apply in_targets in He.
    apply (zip3_targets _ _ _ _ _ _ _ _
             (adagrad_body_eq (first_var st) (second_var st))) in He.
    destruct He as [He|He]; [contradiction|lia].
  - destruct (adadelta_layout cost params rho epsilon st)
      as (st' & Hrun & Hnext & _).
    eexists. exists st'. split; [exact Hrun|].
    intros s x Hx Hrange. apply step_untouched. intros e He.
    apply in_targets in He.
    apply (zip4_targets _ _ _ _ _ _ _ _ _ _ _
             (adadelta_body_eq (first_var st) (second_var st))) in He.
    destruct He as [He|[He|He]]; [contradiction|lia|lia].
  - destruct (adam_layout cost params lr beta1 beta2 epsilon st)
      as (st' & Hrun & Hnext & _).
    eexists. exists st'. split; [exact Hrun|].
    intros s x Hx Hrange. apply step_untouched. intros e He.
    apply in_targets in He. rewrite map_app in He.
    apply in_app_or in He. destruct He as [He|He].
    + apply adam_targets in He. rewrite length_combine in He.
      destruct He as [He|He]; [contradiction|lia].
    + simpl in He. unfold first_var in He. destruct He as [He|[]]. lia.
Qed.

Lemma geometric_sum_succ q k :
  geometric_sum q (S k) = geometric_sum q k + q ^ k.
Proof.
  induction k as [|k IH].
  - simpl. ring.
  - change (geometric_sum q (S (S k))) with (q * geometric_sum q (S k) + 1).
    rewrite IH at 1. simpl. ring.
Qed.

Lemma geometric_sum_closed q k : (1 - q) * geometric_sum q k = 1 - q ^ k.
Proof.
  induction k as [|k IH].
  - simpl. ring.
  - rewrite geometric_sum_succ, Rmult_plus_distr_l, IH. simpl. ring.
Qed.

Lemma geometric_sum_nonneg q k : 0 <= q -> 0 <= geometric_sum q k.
Proof.
  intros Hq. induction k as [|k IH]; simpl; [lra|nra].
Qed.

(** X5.  sgd composes linearly: when the gradient of a coordinate has the
    same value [c] at every step, [k] steps move the parameter by
    [k * lr * c] in all, from any starting value. *)
Theorem sgd_constant_gradient cost params lr st :
  NoDup params -> allocated st params ->
  exists updates st',
    sgd T_grad cost params lr st = Return (updates, st')
    /\ forall s i p g c j,
        holds s (first_var st) lr ->
        nth_error params i = Some p ->
        nth_error (T_grad cost params) i = Some g ->
        (forall k, eval (steps updates k s) g j = c) ->
        forall k, steps updates k s p j = s p j - INR k * (lr * c).
Proof.
  intros Hnd Hall. eexists. eexists. split; [apply sgd_run|].
  intros s i p g c j Hlr Hp Hg Hc.
  assert (Hfresh : ~ In (first_var st) params).
  { intros Hin. pose proof (proj1 (Forall_forall _ _) Hall _ Hin) as Hlt.
    simpl in Hlt. unfold first_var in Hlt. lia. }
  assert (Hinv : forall k,
             holds (steps
                      (flat_map (sgd_body (first_var st))
                         (combine params (T_grad cost params))) k s)
               (first_var st) lr).
  { induction k as [|k IH]; [exact Hlr|].
    intros j'. simpl steps. rewrite sgd_step_other by exact Hfresh.
    apply IH. }
  induction k as [|k IH].
  - simpl. ring.
  - simpl steps.
    rewrite (sgd_step_param T_grad cost params st _ i p g Hnd Hall Hp Hg).
    simpl eval. rewrite IH, (Hinv k j), (Hc k), S_INR. ring.
Qed.

(** Velocity and parameter along a run of sgdmomentum that starts with a
    zero velocity, under a gradient of constant value [c]. *)
Lemma sgdmomentum_trajectory cost params lr momentum st s i p g c j :
  NoDup params -> allocated st params ->
  holds s (first_var st) lr -> holds s (second_var st) momentum ->
  s (aux_var st i) j = 0 ->
  nth_error params i = Some p ->
  nth_error (T_grad cost params) i = Some g ->
  let us := flat_map (sgdmomentum_body (first_var st) (second_var st))
              (zip3 params (T_grad cost params)
                 (seq (next_id st + 2) (length params))) in
  (forall k, eval (steps us k s) g j = c) ->
  forall k,
    steps us k s (aux_var st i) j = - (lr * c) * geometric_sum momentum k
    /\ steps us (S k) s p j - steps us k s p j
       = - (lr * c) * geometric_sum momentum (S k).
Proof.
  intros Hnd Hall Hlr Hmom Hv0 Hp Hg us Hc.
  assert (Hinv : forall k,
             holds (steps us k s) (first_var st) lr
             /\ holds (steps us k s) (second_var st) momentum
             /\ steps us k s (aux_var st i) j
                = - (lr * c) * geometric_sum momentum k).
  { induction k as [|k (IH1 & IH2 & IH3)].
    - simpl. split; [exact Hlr|]. split; [exact Hmom|]. rewrite Hv0. ring.
    - simpl steps.
      destruct (zip3_step T_grad _ _ _ cost params st (steps us k s) i p g
                  (sgdmomentum_body_eq (first_var st) (second_var st))
                  Hnd Hall Hp Hg) as (Hv & _ & H1 & H2).
      fold us in Hv, H1, H2.
      split; [intros j'; rewrite H1; apply IH1|].
      split; [intros j'; rewrite H2; apply IH2|].
      rewrite Hv. simpl eval.
      rewrite IH3, (IH1 j), (IH2 j), (Hc k). simpl. ring. }
  intros k. destruct (Hinv k) as (H1 & H2 & H3). split; [exact H3|].
  simpl steps.
  destruct (zip3_step T_grad _ _ _ cost params st (steps us k s) i p g
              (sgdmomentum_body_eq (first_var st) (second_var st))
              Hnd Hall Hp Hg) as (_ & Hpar & _).
  fold us in Hpar. rewrite Hpar. simpl eval.
  rewrite H3, (H1 j), (H2 j), (Hc k). simpl. ring.
Qed.

(** X6.  Momentum accumulates: from a zero velocity and under a gradient of
    constant non-zero value, with [lr] non-zero and [0 < momentum], every
    step of sgdmomentum moves the parameter strictly farther than the step
    before; the second step moves it [1 + momentum] times as far as the
    first. *)
Theorem momentum_accumulates cost params lr momentum st :
  NoDup params -> allocated st params -> momentum_ok momentum = true ->
  0 < momentum -> lr <> 0 ->
  exists updates st',
    sgdmomentum T_grad cost params lr momentum st = Return (updates, st')
    /\ forall i p g c j,
        nth_error params i = Some p ->
        nth_error (T_grad cost params) i = Some g ->
        c <> 0 ->
        (forall k, eval (steps updates k (contents st')) g j = c) ->
        let s := fun n => steps updates n (contents st') in
        s 1%nat p j - s 0%nat p j = - (lr * c)
        /\ s 2%nat p j - s 1%nat p j
           = (1 + momentum) * (s 1%nat p j - s 0%nat p j)
        /\ forall k,
            Rabs (s (S k) p j - s k p j)
            < Rabs (s (S (S k)) p j - s (S k) p j).
Proof.
  intros Hnd Hall Hok Hpos Hlr.
  destruct (sgdmomentum_run T_grad cost params lr momentum st Hok)
    as (st' & Hrun & Hslr & Hsmom & _ & Hz).
  eexists. exists st'. split; [exact Hrun|].
  intros i p g c j Hp Hg Hc Hfix s.
  assert (Hi : (i < length params)%nat)
    by (apply nth_error_Some; congruence).
  assert (Hv0 : contents st' (aux_var st i) j = 0)
    by (apply Hz; unfold aux_var; lia).
  pose proof (sgdmomentum_trajectory cost params lr momentum st
                (contents st') i p g c j Hnd Hall Hslr Hsmom Hv0 Hp Hg Hfix)
    as Htraj.
  unfold s.
  split; [rewrite (proj2 (Htraj 0%nat)); simpl; ring|].
  split; [rewrite (proj2 (Htraj 1%nat)), (proj2 (Htraj 0%nat)); simpl; ring|].
  intros k. rewrite (proj2 (Htraj k)), (proj2 (Htraj (S k))).
  rewrite !Rabs_mult.
  apply Rmult_lt_compat_l.
  - apply Rabs_pos_lt. apply Ropp_neq_0_compat.
    now apply Rmult_integral_contrapositive_currified.
  - pose proof (geometric_sum_nonneg momentum (S k) (Rlt_le _ _ Hpos)) as H1.
    pose proof (geometric_sum_succ momentum (S k)) as H2.
    assert (H3 : 0 < momentum ^ S k) by (apply pow_lt; exact Hpos).
    rewrite !Rabs_pos_eq by lra. lra.
Qed.

(** X7.  The assertion [0 <= momentum < 1] keeps the velocity bounded: from
    a zero velocity and under a gradient of constant value [c], the
    velocity after any number of steps is at most [|lr * c| / (1 - momentum)]
    in absolute value. *)
Theorem momentum_velocity_bounded cost params lr momentum st :
  NoDup params -> allocated st params -> momentum_ok momentum = true ->
  exists updates st',
    sgdmomentum T_grad cost params lr momentum st = Return (updates, st')
    /\ forall i p g c j,
        nth_error params i = Some p ->
        nth_error (T_grad cost params) i = Some g ->
        (forall k, eval (steps updates k (contents st')) g j = c) ->
        forall k,
          Rabs (steps updates k (contents st') (aux_var st i) j)
          <= Rabs (lr * c) / (1 - momentum).
Proof.
  intros Hnd Hall Hok.
  destruct (sgdmomentum_run T_grad cost params lr momentum st Hok)
    as (st' & Hrun & Hslr & Hsmom & _ & Hz).
  apply momentum_ok_iff in Hok.
  eexists. exists st'. split; [exact Hrun|].
  intros i p g c j Hp Hg Hfix k.
  assert (Hi : (i < length params)%nat)
    by (apply nth_error_Some; congruence).
  assert (Hv0 : contents st' (aux_var st i) j = 0)
    by (apply Hz; unfold aux_var; lia).
  rewrite (proj1 (sgdmomentum_trajectory cost params lr momentum st
                    (contents st') i p g c j Hnd Hall Hslr Hsmom Hv0 Hp Hg
                    Hfix k)).
  rewrite Rabs_mult, Rabs_Ropp.
  pose proof (geometric_sum_nonneg momentum k (proj1 Hok)) as H1.
  pose proof (geometric_sum_closed momentum k) as H2.
  assert (H3 : 0 <= momentum ^ k) by (apply pow_le; lra).
  rewrite (Rabs_pos_eq (geometric_sum momentum k)) by exact H1.
  unfold Rdiv. apply Rmult_le_compat_l; [apply Rabs_pos|].
  apply (Rmult_le_reg_l (1 - momentum)); [lra|].
  rewrite Rinv_r by lra. lra.
Qed.

(** X8.  With momentum 0, sgdmomentum is sgd: built from the same store,
    a step of either gives every parameter the same new value. *)
Theorem zero_momentum_is_sgd cost params lr st :
  NoDup params -> allocated st params ->
  exists updates_m st_m updates_s st_s,
    sgdmomentum T_grad cost params lr 0 st = Return (updates_m, st_m)
    /\ sgd T_grad cost params lr st = Return (updates_s, st_s)
    /\ forall s i p g j,
        holds s (first_var st) lr -> holds s (second_var st) 0 ->
        nth_error params i = Some p ->
        nth_error (T_grad cost params) i = Some g ->
        step updates_m s p j = step updates_s s p j.
Proof.
  intros Hnd Hall.
  assert (Hok : momentum_ok 0 = true) by (apply momentum_ok_iff; lra).
  destruct (sgdmomentum_run T_grad cost params lr 0 st Hok)
    as (st' & Hrun & _).
  eexists. exists st'. eexists. eexists.
  split; [exact Hrun|]. split; [apply sgd_run|].
  intros s i p g j Hlr Hmom Hp Hg.
  destruct (zip3_step T_grad _ _ _ cost params st s i p g
              (sgdmomentum_body_eq (first_var st) (second_var st))
              Hnd Hall Hp Hg) as (_ & Hpar & _).
  rewrite Hpar.
  rewrite (sgd_step_param T_grad cost params st s i p g Hnd Hall Hp Hg).
  simpl. rewrite (Hmom j). ring.
Qed.

Lemma ratio_to_sqrt_le_1 g D :
  g ^ 2 <= D -> 0 < D -> Rabs (g / sqrt D) <= 1.
Proof.
  intros Hg HD.
  assert (Hs : 0 < sqrt D) by (now apply sqrt_lt_R0).
  assert (Ha : Rabs g <= sqrt D).
  { rewrite <- sqrt_Rsqr_abs. apply sqrt_le_1_alt. unfold Rsqr.
    simpl in Hg. lra. }
  unfold Rdiv. rewrite Rabs_mult, Rabs_inv.
  rewrite (Rabs_pos_eq (sqrt D)) by lra.
  apply (Rmult_le_reg_r (sqrt D)); [exact Hs|].
  rewrite Rmult_assoc, Rinv_l by lra. lra.
Qed.

Lemma pow_lt_1_succ b k : 0 <= b < 1 -> b ^ S k < 1.
Proof.
  intros Hb.
  assert (Hk : b ^ k <= 1).
  { replace 1 with (1 ^ k) by apply pow1. apply pow_incr. lra. }
  assert (H0 : 0 <= b ^ k) by (apply pow_le; lra).
  simpl. nra.
Qed.

(** X9.  Adagrad's accumulator along any run, with a positive epsilon:
    [gsum] is zero at construction, never negative and never decreases, so
    the number under the square root is positive at every step; and no
    step moves a coordinate by more than [|lr|]. *)
Theorem adagrad_accumulator_invariant cost params lr epsilon st :
  NoDup params -> allocated st params -> 0 < epsilon ->
  exists updates st',
    adagrad T_grad cost params lr epsilon st = Return (updates, st')
    /\ forall i p g,
        nth_error params i = Some p ->
        nth_error (T_grad cost params) i = Some g ->
        let inv := fun s : env =>
          holds s (first_var st) lr /\ holds s (second_var st) epsilon
          /\ forall j, 0 <= s (aux_var st i) j in
        (forall j, contents st' (aux_var st i) j = 0)
        /\ inv (contents st')
        /\ forall s,
            inv s ->
            inv (step updates s)
            /\ forall j,
                s (aux_var st i) j <= step updates s (aux_var st i) j
                /\ 0 < step updates s (aux_var st i) j + epsilon
                /\ Rabs (step updates s p j - s p j) <= Rabs lr.
Proof.
  intros Hnd Hall Heps.
  destruct (adagrad_run T_grad cost params lr epsilon st)
    as (st' & Hrun & Hlr & Hseps & _ & Hz).
  eexists. exists st'. split; [exact Hrun|].
  intros i p g Hp Hg inv. unfold inv.
  assert (Hi : (i < length params)%nat)
    by (apply nth_error_Some; congruence).
  split.
  { intros j. apply Hz. unfold aux_var. lia. }
  split.
  { split; [exact Hlr|]. split; [exact Hseps|].
    intros j. rewrite Hz by (unfold aux_var; lia). lra. }
  intros s (H1 & H2 & H3).
  destruct (zip3_step T_grad _ _ _ cost params st s i p g
              (adagrad_body_eq (first_var st) (second_var st))
              Hnd Hall Hp Hg) as (Hv & Hpar & Hl & He).
  assert (Hnew : forall j,
             step
               (flat_map (adagrad_body (first_var st) (second_var st))
                  (zip3 params (T_grad cost params)
                     (seq (next_id st + 2) (length params)))) s
               (aux_var st i) j
             = s (aux_var st i) j + eval s g j ^ 2).
  { intros j. rewrite Hv. simpl. now rewrite Rpow_2. }
  assert (Hsq : forall j, 0 <= eval s g j ^ 2)
    by (intros j; apply pow2_ge_0).
  split.
  { split; [intros j; rewrite Hl; apply H1|].
    split; [intros j; rewrite He; apply H2|].
    intros j. rewrite Hnew. specialize (H3 j). specialize (Hsq j). lra. }
  intros j. rewrite Hnew. specialize (H3 j). specialize (Hsq j).
  split; [lra|]. split; [lra|].
  rewrite Hpar. simpl eval. rewrite (H1 j), (H2 j), Rpow_2.
  replace (s p j
           - lr * eval s g j
             / sqrt (s (aux_var st i) j + eval s g j ^ 2 + epsilon)
           - s p j)
    with (- lr * (eval s g j
                  / sqrt (s (aux_var st i) j + eval s g j ^ 2 + epsilon)))
    by (unfold Rdiv; ring).
  rewrite Rabs_mult, Rabs_Ropp.
  rewrite <- (Rmult_1_r (Rabs lr)) at 2.
  apply Rmult_le_compat_l; [apply Rabs_pos|].
  apply ratio_to_sqrt_le_1; lra.
Qed.

(** X10.  Adadelta's accumulators along any run, with [0 <= rho < 1] and a
    positive epsilon: [accu_gradient] and [accu_delta] are zero at
    construction and never negative, so the quotient under the square root
    is positive at every step. *)
Theorem adadelta_accumulator_invariant cost params rho epsilon st :
  NoDup params -> allocated st params -> 0 <= rho < 1 -> 0 < epsilon ->
  exists updates st',
    adadelta T_grad cost params rho epsilon st = Return (updates, st')
    /\ forall i p g,
        nth_error params i = Some p ->
        nth_error (T_grad cost params) i = Some g ->
        let a := aux_var st i in
        let d := aux2_var st (length params) i in
        let inv := fun s : env =>
          holds s (first_var st) rho /\ holds s (second_var st) epsilon
          /\ forall j, 0 <= s a j /\ 0 <= s d j in
        (forall j, contents st' a j = 0 /\ contents st' d j = 0)
        /\ inv (contents st')
        /\ forall s,
            inv s ->
            inv (step updates s)
            /\ forall j,
                0 < (s d j + epsilon) / (step updates s a j + epsilon).
Proof.
  intros Hnd Hall Hrho Heps.
  destruct (adadelta_run T_grad cost params rho epsilon st)
    as (st' & Hrun & Hsrho & Hseps & _ & Hz).
  eexists. exists st'. split; [exact Hrun|].
  intros i p g Hp Hg a d inv. unfold inv, a, d.
  assert (Hi : (i < length params)%nat)
    by (apply nth_error_Some; congruence).
  split.
  { intros j. split; apply Hz; unfold aux_var, aux2_var; lia. }
  split.
  { split; [exact Hsrho|]. split; [exact Hseps|].
    intros j. rewrite !Hz by (unfold aux_var, aux2_var; lia). lra. }
  intros s (H1 & H2 & H3).
  destruct (zip4_step T_grad _ _ _ _ cost params st s i p g
              (adadelta_body_eq (first_var st) (second_var st))
              Hnd Hall Hp Hg) as (Ha & Hd & _ & Hl & He).
  assert (Hsq : forall x : R, 0 <= x ^ 2) by (intros x; apply pow2_ge_0).
  assert (Hnewa : forall j,
             0 <= step
                    (flat_map (adadelta_body (first_var st) (second_var st))
                       (zip4 params (T_grad cost params)
                          (seq (next_id st + 2) (length params))
                          (seq (next_id st + 2 + length params)
                             (length params)))) s (aux_var st i) j).
  { intros j. rewrite Ha. simpl. rewrite (H1 j), Rpow_2.
    destruct (H3 j) as [H3a _]. specialize (Hsq (eval s g j)). nra. }
  split.
  { split; [intros j; rewrite Hl; apply H1|].
    split; [intros j; rewrite He; apply H2|].
    intros j. split; [apply Hnewa|].
    rewrite Hd. simpl. rewrite (H1 j), !Rpow_2.
    destruct (H3 j) as [_ H3d].
    match goal with
    | |- 0 <= _ + _ * ?x ^ 2 => specialize (Hsq x)
    end.
    nra. }
  intros j. destruct (H3 j) as [_ H3d]. specialize (Hnewa j).
  apply Rdiv_lt_0_compat; lra.
Qed.

(** Moments and parameter along a run of adam from zero moments and
    [t = 1], under a gradient of constant value [c]. *)
Lemma adam_trajectory cost params lr beta1 beta2 epsilon st s i p g c j :
  NoDup params -> allocated st params ->
  0 <= beta1 < 1 -> 0 <= beta2 < 1 ->
  holds s (first_var st) 1 ->
  s (adam_m st i) j = 0 -> s (adam_v st i) j = 0 ->
  nth_error params i = Some p ->
  nth_error (T_grad cost params) i = Some g ->
  let us := adam_entries lr beta1 beta2 epsilon (first_var st)
              (S (next_id st)) (combine params (T_grad cost params))
            ++ [(first_var st, Add (Shared (first_var st)) (Const 1))] in
  (forall k, eval (steps us k s) g j = c) ->
  forall k,
    steps us k s (adam_m st i) j = (1 - beta1 ^ k) * c
    /\ steps us k s (adam_v st i) j = (1 - beta2 ^ k) * c ^ 2
    /\ steps us (S k) s p j - steps us k s p j
       = - (lr * c / (Rabs c + epsilon)).
Proof.
  intros Hnd Hall Hb1 Hb2 Ht Hm0 Hv0 Hp Hg us Hc.
  assert (Htk : forall k, steps us k s (first_var st) j = INR (S k)).
  { intros k. unfold us. rewrite steps_counter, (Ht j), S_INR. ring. }
  assert (Hinv : forall k,
             steps us k s (adam_m st i) j = (1 - beta1 ^ k) * c
             /\ steps us k s (adam_v st i) j = (1 - beta2 ^ k) * c ^ 2).
  { induction k as [|k (IH1 & IH2)].
    - simpl. rewrite Hm0, Hv0. split; ring.
    - simpl steps.
      destruct (adam_step T_grad cost params lr beta1 beta2 epsilon st
                  (steps us k s) i p g Hnd Hall Hp Hg) as (Hm & Hv & _).
      fold us in Hm, Hv. rewrite Hm, Hv. simpl eval.
      rewrite IH1, IH2, (Hc k), Rpow_2. simpl. split; ring. }
  intros k. destruct (Hinv k) as (H1 & H2).
  split; [exact H1|]. split; [exact H2|].
  simpl steps.
  destruct (adam_step T_grad cost params lr beta1 beta2 epsilon st
              (steps us k s) i p g Hnd Hall Hp Hg) as (_ & _ & Hpar).
  fold us in Hpar. rewrite Hpar. simpl eval.
  rewrite H1, H2, (Hc k), Rpow_2, (Htk k), !Rpow_INR.
  pose proof (pow_lt_1_succ beta1 k Hb1) as Hd1.
  pose proof (pow_lt_1_succ beta2 k Hb2) as Hd2.
  replace ((beta1 * ((1 - beta1 ^ k) * c) + (1 - beta1) * c)
           / (1 - beta1 ^ S k)) with c
    by (simpl; simpl in Hd1; field; lra).
  replace ((beta2 * ((1 - beta2 ^ k) * c ^ 2) + (1 - beta2) * c ^ 2)
           / (1 - beta2 ^ S k)) with (Rsqr c)
    by (unfold Rsqr; simpl; simpl in Hd2; field; lra).
  rewrite sqrt_Rsqr_abs. ring.
Qed.

(** X11.  Adam's bias correction is exact under a constant gradient: with
    [0 <= beta1, beta2 < 1] and a positive epsilon, from construction and
    under a gradient of constant value [c], the moments after [k] steps are
    [(1 - beta1^k) * c] and [(1 - beta2^k) * c^2], so [m_hat = c] and
    [v_hat = c^2] at every step and every step moves the parameter by
    [- lr * c / (|c| + epsilon)], never by more than [|lr|]. *)
Theorem adam_constant_gradient cost params lr beta1 beta2 epsilon st :
  NoDup params -> allocated st params ->
  0 <= beta1 < 1 -> 0 <= beta2 < 1 -> 0 < epsilon ->
  exists updates st',
    adam T_grad cost params lr beta1 beta2 epsilon st
    = Return (updates, st')
    /\ forall i p g c j,
        nth_error params i = Some p ->
        nth_error (T_grad cost params) i = Some g ->
        (forall k, eval (steps updates k (contents st')) g j = c) ->
        forall k,
          let s := fun n => steps updates n (contents st') in
          s k (adam_m st i) j = (1 - beta1 ^ k) * c
          /\ s k (adam_v st i) j = (1 - beta2 ^ k) * c ^ 2
          /\ s (S k) p j - s k p j = - (lr * c / (Rabs c + epsilon))
          /\ Rabs (s (S k) p j - s k p j) <= Rabs lr.
Proof.
  intros Hnd Hall Hb1 Hb2 Heps.
  destruct (adam_run T_grad cost params lr beta1 beta2 epsilon st)
    as (st' & Hrun & Hone & _ & Hz).
  eexists. exists st'. split; [exact Hrun|].
  intros i p g c j Hp Hg Hfix k s.
  assert (Hi : (i < length (combine params (T_grad cost params)))%nat).
  { apply nth_error_Some.
    rewrite (proj2 (nth_error_combine _ _ i p g) (conj Hp Hg)).
    discriminate. }
  assert (Hm0 : contents st' (adam_m st i) j = 0)
    by (apply Hz; unfold adam_m; lia).
  assert (Hv0 : contents st' (adam_v st i) j = 0)
    by (apply Hz; unfold adam_v; lia).
  destruct (adam_trajectory cost params lr beta1 beta2 epsilon st
              (contents st') i p g c j Hnd Hall Hb1 Hb2 Hone Hm0 Hv0 Hp Hg
              Hfix k) as (H1 & H2 & H3).
  unfold s. split; [exact H1|]. split; [exact H2|]. split; [exact H3|].
  rewrite H3, Rabs_Ropp.
  pose proof (Rabs_pos c) as Hc.
  unfold Rdiv. rewrite Rmult_assoc, Rabs_mult.
  rewrite <- (Rmult_1_r (Rabs lr)) at 2.
  apply Rmult_le_compat_l; [apply Rabs_pos|].
  rewrite Rabs_mult, Rabs_inv.
  rewrite (Rabs_pos_eq (Rabs c + epsilon)) by lra.
  apply (Rmult_le_reg_r (Rabs c + epsilon)); [lra|].
  rewrite Rmult_assoc, Rinv_l by lra. lra.
Qed.

(** X12.  Adam's divisions along any run, with [0 <= beta1, beta2 < 1]:
    [t] is 1 at construction and stays a positive integer, [v] is zero at
    construction and never negative, so both bias corrections
    [1 - beta^t] are positive and [v_hat], the number under the square
    root, is never negative. *)
Theorem adam_denominators_invariant cost params lr beta1 beta2 epsilon st :
  NoDup params -> allocated st params ->
  0 <= beta1 < 1 -> 0 <= beta2 < 1 ->
  exists updates st',
    adam T_grad cost params lr beta1 beta2 epsilon st
    = Return (updates, st')
    /\ forall i p g,
        nth_error params i = Some p ->
        nth_error (T_grad cost params) i = Some g ->
        let t := first_var st in
        let inv := fun s : env =>
          (exists k, holds s t (INR (S k)))
          /\ forall j, 0 <= s (adam_v st i) j in
        holds (contents st') t 1
        /\ (forall j, contents st' (adam_v st i) j = 0)
        /\ (forall s j, step updates s t j = s t j + 1)
        /\ inv (contents st')
        /\ forall s,
            inv s ->
            inv (step updates s)
            /\ forall j,
                0 < 1 - Rpow beta1 (s t j)
                /\ 0 < 1 - Rpow beta2 (s t j)
                /\ 0 <= step updates s (adam_v st i) j
                        / (1 - Rpow beta2 (s t j)).
Proof.
  intros Hnd Hall Hb1 Hb2.
  destruct (adam_run T_grad cost params lr beta1 beta2 epsilon st)
    as (st' & Hrun & Hone & _ & Hz).
  eexists. exists st'. split; [exact Hrun|].
  intros i p g Hp Hg t inv. unfold inv, t.
  assert (Hi : (i < length (combine params (T_grad cost params)))%nat).
  { apply nth_error_Some.
    rewrite (proj2 (nth_error_combine _ _ i p g) (conj Hp Hg)).
    discriminate. }
  split; [exact Hone|].
  split; [intros j; apply Hz; unfold adam_v; lia|].
  split; [intros s j; apply adam_step_counter|].
  split.
  { split.
    - exists 0%nat. intros j. rewrite (Hone j). reflexivity.
    - intros j. rewrite Hz by (unfold adam_v; lia). lra. }
  intros s ((k & Hk) & Hv).
  destruct (adam_step T_grad cost params lr beta1 beta2 epsilon st s i p g
              Hnd Hall Hp Hg) as (_ & Hvn & _).
  assert (Hnew : forall j,
             0 <= step
                    (adam_entries lr beta1 beta2 epsilon (first_var st)
                       (S (next_id st))
                       (combine params (T_grad cost params))
                     ++ [(first_var st,
                          Add (Shared (first_var st)) (Const 1))]) s
                    (adam_v st i) j).
  { intros j. rewrite Hvn. simpl. rewrite Rpow_2.
    specialize (Hv j). pose proof (pow2_ge_0 (eval s g j)) as Hsq. nra. }
  split.
  { split.
    - exists (S k). intros j. rewrite adam_step_counter, (Hk j).
      rewrite (S_INR (S k)). reflexivity.
    - exact Hnew. }
  intros j. rewrite (Hk j), !Rpow_INR.
  pose proof (pow_lt_1_succ beta1 k Hb1) as Hd1.
  pose proof (pow_lt_1_succ beta2 k Hb2) as Hd2.
  split; [lra|]. split; [lra|].
  apply Rmult_le_pos; [apply Hnew|].
  apply Rlt_le, Rinv_0_lt_compat. lra.
Qed.

End Construction.

(** ** The further properties on sample inputs *)

Lemma construction_allocates_witness :
  exists updates st',
    adadelta ones_grad (Const 0) two_params (19 / 20) (1 / 10) store0
    = Return (updates, st')
    /\ next_id st' = 8%nat
    /\ contents st' 1%nat = contents store0 1%nat.
Proof.
  destruct (construction_allocates ones_grad (Const 0) two_params (1 / 2)
              (9 / 10) (19 / 20) (9 / 10) (999 / 1000) (1 / 10)
              store0 momentum_ok_sample)
    as (_ & _ & _ & (u & st' & Hrun & Hnext & Hkept) & _).
  exists u, st'. split; [exact Hrun|]. split; [exact Hnext|].
  apply Hkept. simpl. lia.
Defined.

Lemma update_list_lengths_witness :
  exists updates st',
    adam ones_grad sum_cost two_params (1 / 2) (9 / 10) (999 / 1000)
      (1 / 100000000) store0
    = Return (updates, st')
    /\ length updates = 7%nat.
Proof.
  destruct (update_list_lengths ones_grad sum_cost two_params (1 / 2)
              (9 / 10) (19 / 20) (9 / 10) (999 / 1000) (1 / 100000000)
              store0 momentum_ok_sample)
    as (_ & _ & _ & _ & (u & st' & Hrun & Hlen)).
  exists u, st'. split; [exact Hrun | exact Hlen].
Defined.

Lemma update_targets_distinct_witness :
  exists updates st',
    adam ones_grad (Const 0) two_params (1 / 2) (9 / 10) (999 / 1000)
      (1 / 100000000) store0
    = Return (updates, st')
    /\ NoDup (map fst updates).
Proof.
  destruct (update_targets_distinct ones_grad (Const 0) two_params (1 / 2)
              (9 / 10) (19 / 20) (9 / 10) (999 / 1000) (1 / 100000000)
              store0 two_params_nodup two_params_allocated
              momentum_ok_sample)
    as (_ & _ & _ & _ & (u & st' & Hrun & Hnd)).
  exists u, st'. split; [exact Hrun | exact Hnd].
Defined.

Lemma step_frame_witness :
  exists updates st',
    adagrad ones_grad (Const 0) [0%nat] (1 / 2) (1 / 10) store0
    = Return (updates, st')
    /\ forall s, step updates s 1%nat = s 1%nat.
Proof.
  destruct (step_frame ones_grad (Const 0) [0%nat] (1 / 2) (9 / 10)
              (19 / 20) (9 / 10) (999 / 1000) (1 / 10) store0
              momentum_ok_sample)
    as (_ & _ & (u & st' & Hrun & Hframe) & _).
  exists u, st'. split; [exact Hrun|].
  intros s. apply Hframe.
  - simpl. intros [H|[]]. discriminate.
  - left. simpl. lia.
Defined.

Lemma sgd_constant_gradient_witness :
  exists updates st',
    sgd ones_grad (Const 0) two_params (1 / 2) store0
    = Return (updates, st')
    /\ steps updates 3 (upd (fun _ => scalar 1) 2%nat (scalar (1 / 2)))
         1%nat 0%nat
       = 1 - INR 3 * (1 / 2 * 1).
Proof.
  destruct (sgd_constant_gradient ones_grad (Const 0) two_params (1 / 2)
              store0 two_params_nodup two_params_allocated)
    as (u & st' & Hrun & Hk).
  exists u, st'. split; [exact Hrun|].
  exact (Hk (upd (fun _ => scalar 1) 2%nat (scalar (1 / 2))) 1%nat 1%nat
           (Const 1) 1 0%nat (fun _ => eq_refl) eq_refl eq_refl
           (fun _ => eq_refl) 3%nat).
Defined.

Lemma momentum_accumulates_witness :
  exists updates st',
    sgdmomentum ones_grad (Const 0) two_params (1 / 2) (9 / 10) store0
    = Return (updates, st')
    /\ Rabs (steps updates 1 (contents st') 1%nat 0%nat
             - steps updates 0 (contents st') 1%nat 0%nat)
       < Rabs (steps updates 2 (contents st') 1%nat 0%nat
               - steps updates 1 (contents st') 1%nat 0%nat).
Proof.
  assert (Hpos : 0 < 9 / 10) by lra.
  assert (Hlr : 1 / 2 <> 0) by lra.
  assert (Hc : (1 : R) <> 0) by lra.
  destruct (momentum_accumulates ones_grad (Const 0) two_params (1 / 2)
              (9 / 10) store0 two_params_nodup two_params_allocated
              momentum_ok_sample Hpos Hlr)
    as (u & st' & Hrun & Hacc).
  exists u, st'. split; [exact Hrun|].
  exact (proj2 (proj2 (Hacc 1%nat 1%nat (Const 1) 1 0%nat eq_refl eq_refl
                         Hc (fun _ => eq_refl))) 0%nat).
Defined.

Lemma momentum_velocity_bounded_witness :
  exists updates st',
    sgdmomentum ones_grad (Const 0) two_params (1 / 2) (9 / 10) store0
    = Return (updates, st')
    /\ Rabs (steps updates 5 (contents st') (aux_var store0 1) 0%nat)
       <= Rabs (1 / 2 * 1) / (1 - 9 / 10).
Proof.
  destruct (momentum_velocity_bounded ones_grad (Const 0) two_params
              (1 / 2) (9 / 10) store0 two_params_nodup two_params_allocated
              momentum_ok_sample)
    as (u & st' & Hrun & Hb).
  exists u, st'. split; [exact Hrun|].
  exact (Hb 1%nat 1%nat (Const 1) 1 0%nat eq_refl eq_refl
           (fun _ => eq_refl) 5%nat).
Defined.

Lemma zero_momentum_is_sgd_witness :
  exists updates_m st_m updates_s st_s,
    sgdmomentum ones_grad (Const 0) two_params (1 / 2) 0 store0
    = Return (updates_m, st_m)
    /\ sgd ones_grad (Const 0) two_params (1 / 2) store0
       = Return (updates_s, st_s)
    /\ step updates_m
         (upd (upd (fun _ => scalar 1) 2%nat (scalar (1 / 2))) 3%nat
            (scalar 0)) 1%nat 0%nat
       = step updates_s
           (upd (upd (fun _ => scalar 1) 2%nat (scalar (1 / 2))) 3%nat
              (scalar 0)) 1%nat 0%nat.
Proof.
  destruct (zero_momentum_is_sgd ones_grad (Const 0) two_params (1 / 2)
              store0 two_params_nodup two_params_allocated)
    as (um & stm & us & sts & Hm & Hs & Heq).
  exists um, stm, us, sts. split; [exact Hm|]. split; [exact Hs|].
  exact (Heq _ 1%nat 1%nat (Const 1) 0%nat (fun _ => eq_refl)
           (fun _ => eq_refl) eq_refl eq_refl).
Defined.

Lemma adagrad_accumulator_invariant_witness :
  exists updates st',
    adagrad ones_grad (Const 0) two_params (1 / 2) (1 / 10) store0
    = Return (updates, st')
    /\ Rabs (step updates (contents st') 1%nat 0%nat
             - contents st' 1%nat 0%nat) <= Rabs (1 / 2).
Proof.
  assert (Heps : 0 < 1 / 10) by lra.
  destruct (adagrad_accumulator_invariant ones_grad (Const 0) two_params
              (1 / 2) (1 / 10) store0 two_params_nodup two_params_allocated
              Heps)
    as (u & st' & Hrun & Hinv).
  exists u, st'. split; [exact Hrun|].
  destruct (Hinv 1%nat 1%nat (Const 1) eq_refl eq_refl) as (_ & H0 & Hstep).
  exact (proj2 (proj2 (proj2 (Hstep (contents st') H0) 0%nat))).
Defined.

Lemma adadelta_accumulator_invariant_witness :
  exists updates st',
    adadelta ones_grad (Const 0) two_params (19 / 20) (1 / 10) store0
    = Return (updates, st')
    /\ 0 < (contents st' (aux2_var store0 2 1) 0%nat + 1 / 10)
           / (step updates (contents st') (aux_var store0 1) 0%nat + 1 / 10).
Proof.
  assert (Hrho : 0 <= 19 / 20 < 1) by lra.
  assert (Heps : 0 < 1 / 10) by lra.
  destruct (adadelta_accumulator_invariant ones_grad (Const 0) two_params
              (19 / 20) (1 / 10) store0 two_params_nodup
              two_params_allocated Hrho Heps)
    as (u & st' & Hrun & Hinv).
  exists u, st'. split; [exact Hrun|].
  destruct (Hinv 1%nat 1%nat (Const 1) eq_refl eq_refl) as (_ & H0 & Hstep).
  exact (proj2 (Hstep (contents st') H0) 0%nat).
Defined.

Lemma adam_constant_gradient_witness :
  exists updates st',
    adam ones_grad (Const 0) two_params (1 / 1000) (9 / 10) (999 / 1000)
      (1 / 100000000) store0
    = Return (updates, st')
    /\ steps updates 1 (contents st') 1%nat 0%nat
       - steps updates 0 (contents st') 1%nat 0%nat
       = - (1 / 1000 * 1 / (Rabs 1 + 1 / 100000000)).
Proof.
  assert (Hb1 : 0 <= 9 / 10 < 1) by lra.
  assert (Hb2 : 0 <= 999 / 1000 < 1) by lra.
  assert (Heps : 0 < 1 / 100000000) by lra.
  destruct (adam_constant_gradient ones_grad (Const 0) two_params
              (1 / 1000) (9 / 10) (999 / 1000) (1 / 100000000) store0
              two_params_nodup two_params_allocated Hb1 Hb2 Heps)
    as (u & st' & Hrun & Hk).
  exists u, st'. split; [exact Hrun|].
  exact (proj1 (proj2 (proj2 (Hk 1%nat 1%nat (Const 1) 1 0%nat eq_refl
                                eq_refl (fun _ => eq_refl) 0%nat)))).
Defined.

Lemma adam_denominators_invariant_witness :
  exists updates st',
    adam ones_grad (Const 0) two_params (1 / 1000) (9 / 10) (999 / 1000)
      (1 / 100000000) store0
    = Return (updates, st')
    /\ 0 < 1 - Rpow (9 / 10) (contents st' (first_var store0) 0%nat)
    /\ 0 <= step updates (contents st') (adam_v store0 1) 0%nat
            / (1 - Rpow (999 / 1000)
                     (contents st' (first_var store0) 0%nat)).
Proof.
  assert (Hb1 : 0 <= 9 / 10 < 1) by lra.
  assert (Hb2 : 0 <= 999 / 1000 < 1) by lra.
  destruct (adam_denominators_invariant ones_grad (Const 0) two_params
              (1 / 1000) (9 / 10) (999 / 1000) (1 / 100000000) store0
              two_params_nodup two_params_allocated Hb1 Hb2)
    as (u & st' & Hrun & Hinv).
  exists u, st'. split; [exact Hrun|].
  destruct (Hinv 1%nat 1%nat (Const 1) eq_refl eq_refl)
    as (_ & _ & _ & H0 & Hstep).
  destruct (proj2 (Hstep (contents st') H0) 0%nat) as (H1 & _ & H3).
  split; [exact H1 | exact H3].
Defined.
